(** * pydns.aresolver: the asynchronous resolver engine

    A shallow embedding of [src/pydns/aresolver.py]: the single-flight
    table of [AsyncResolver] ([query_future], [query], [query_key]), the
    cache resolver ([query_cache]), name-server discovery
    ([get_nameservers]) and the remote resolver ([query_remote]).

    Python objects that are mutated in place (the response [res], the
    dictionary [self.futures], the cache, the [Future] objects) are
    threaded explicitly through a state; exceptions are the [Raise] branch
    of [result]. *)

From Stdlib Require Import ZArith String Ascii List Bool Lia.
From Stdlib.Strings Require Import Byte.
From stdpp Require Import base option list strings gmap.
From Equations Require Import Equations.

Local Open Scope string_scope.
Local Open Scope list_scope.

(** ** Python values used by the resolver *)

(** Modelled from the spec: the record type codes of the [types] module
    (the module is not part of the sources at hand), with the IANA codes. *)
Module types.
Definition A : Z := 1.
Definition NS : Z := 2.
Definition CNAME : Z := 5.
Definition SOA : Z := 6.
Definition PTR : Z := 12.
Definition MX : Z := 15.
Definition AAAA : Z := 28.
Definition ANY : Z := 255.
End types.

(** [A_TYPES = types.A, types.AAAA] *)
Definition A_TYPES : list Z := [types.A; types.AAAA].

(** The second argument of [cache.query] is a type code or a tuple of
    type codes. *)
Inductive qsel :=
  | QType (q : Z)
  | QTypes (qs : list Z).

(** The duck-typed payload of a record: [None], a string (an address or a
    host name) or a tuple (SOA, MX). *)
Inductive rdata :=
  | NoData
  | Text (s : string)
  | Fields (items : list string).

Inductive direction := REQUEST | RESPONSE.

(** [utils.Record] *)
Record DNSRecord := mkRecord {
  r_q : direction;
  r_name : string;
  r_qtype : Z;
  r_data : rdata;
  r_ttl : Z
}.

(** [rec.copy(name = fqdn)] *)
Definition copy_name (rec : DNSRecord) (fqdn : string) : DNSRecord :=
  {| r_q := r_q rec; r_name := fqdn; r_qtype := r_qtype rec;
     r_data := r_data rec; r_ttl := r_ttl rec |}.

(** [utils.DNSMessage]: the four sections and the flags the resolver
    reads and writes. *)
Record Message := mkMessage {
  m_qd : list DNSRecord;
  m_an : list DNSRecord;
  m_ns : list DNSRecord;
  m_ar : list DNSRecord;
  m_ra : Z;
  m_aa : Z;
  m_r : Z
}.

Definition set_an (res : Message) (v : list DNSRecord) : Message :=
  {| m_qd := m_qd res; m_an := v; m_ns := m_ns res; m_ar := m_ar res;
     m_ra := m_ra res; m_aa := m_aa res; m_r := m_r res |}.
Definition set_ns (res : Message) (v : list DNSRecord) : Message :=
  {| m_qd := m_qd res; m_an := m_an res; m_ns := v; m_ar := m_ar res;
     m_ra := m_ra res; m_aa := m_aa res; m_r := m_r res |}.
Definition set_ar (res : Message) (v : list DNSRecord) : Message :=
  {| m_qd := m_qd res; m_an := m_an res; m_ns := m_ns res; m_ar := v;
     m_ra := m_ra res; m_aa := m_aa res; m_r := m_r res |}.
Definition set_qd (res : Message) (v : list DNSRecord) : Message :=
  {| m_qd := v; m_an := m_an res; m_ns := m_ns res; m_ar := m_ar res;
     m_ra := m_ra res; m_aa := m_aa res; m_r := m_r res |}.
Definition set_aa (res : Message) (v : Z) : Message :=
  {| m_qd := m_qd res; m_an := m_an res; m_ns := m_ns res; m_ar := m_ar res;
     m_ra := m_ra res; m_aa := v; m_r := m_r res |}.
Definition set_r (res : Message) (v : Z) : Message :=
  {| m_qd := m_qd res; m_an := m_an res; m_ns := m_ns res; m_ar := m_ar res;
     m_ra := m_ra res; m_aa := m_aa res; m_r := v |}.

(** Modelled from the spec: the constructor [utils.DNSMessage(ra = ...)]
    ([utils] is not part of the sources at hand): four empty sections,
    [aa = 0] and response code [r = 0]. *)
Definition DNSMessage (ra : Z) : Message :=
  {| m_qd := []; m_an := []; m_ns := []; m_ar := [];
     m_ra := ra; m_aa := 0; m_r := 0 |}.

(** Modelled from the spec: [utils.Record(utils.REQUEST, name, qtype)],
    the question record, which carries no payload. *)
Definition question (fqdn : string) (qtype : Z) : DNSRecord :=
  {| r_q := REQUEST; r_name := fqdn; r_qtype := qtype;
     r_data := NoData; r_ttl := 0 |}.

(** ** Exceptions *)

Inductive exn :=
  | NameError
  | KeyError
  | AttributeError
  | TimeoutError
  | CancelledError
  | InvalidStateError
  | DNSError
  | OSError
  | IndexError
  | TypeError.

Inductive result (T : Type) :=
  | Ok (v : T)
  | Raise (e : exn).
Arguments Ok {T} v.
Arguments Raise {T} e.

(** ** Strings and bytes *)

(** [str.partition('.')] *)
Fixpoint partition_dot (s : string) : string * string * string :=
  match s with
  | EmptyString => ("", "", "")
  | String c s' =>
      if Ascii.eqb c "."%char then ("", ".", s')
      else let '(h, sep, t) := partition_dot s' in (String c h, sep, t)
  end.

(** [str.endswith] *)
Fixpoint endswith (s suffix : string) : bool :=
  String.eqb s suffix ||
  match s with
  | EmptyString => false
  | String _ s' => endswith s' suffix
  end.

Definition lower_ascii (c : ascii) : ascii :=
  let n := nat_of_ascii c in
  if (65 <=? n)%nat && (n <=? 90)%nat then ascii_of_nat (n + 32) else c.

(** [str.lower], on ASCII names *)
Fixpoint lower (s : string) : string :=
  match s with
  | EmptyString => EmptyString
  | String c s' => String (lower_ascii c) (lower s')
  end.

Definition bytes := list byte.

(** [bytes.startswith] *)
Fixpoint startswith (data pre : bytes) {struct pre} : bool :=
  match pre, data with
  | [], _ => true
  | _ :: _, [] => false
  | p :: pre', d :: data' => Byte.eqb d p && startswith data' pre'
  end.

(** ** The collaborators from [utils] *)

(** The cache ([utils.Hosts], from which [DNSMemCache] inherits [query]
    and [add_host]), the wire codec and [utils.ip_type] are not part of
    the sources at hand: the resolver is stated over any implementation
    of them. *)
Class Utils := {
  cache_t : Type;
  (** [cache.query(name, qtype)], as the list it yields *)
  cache_query : cache_t -> rdata -> qsel -> list DNSRecord;
  (** [cache.add_host(name, record)] *)
  add_host : string -> DNSRecord -> cache_t -> cache_t;
  (** [utils.ip_type(host)]: [None] when [host] is not an address *)
  ip_type : rdata -> option Z;
  (** [req.qd = [Record(REQUEST, name, qtype)]; req.pack()] *)
  pack : rdata -> Z -> bytes;
  (** [utils.raw_parse(data)] *)
  raw_parse : bytes -> result Message
}.

(** [AsyncResolver]'s class attributes, which a deployment may override. *)
Record Config := {
  recursion_available : Z;
  rootdomains : list string
}.

(** [recursion_available = 1], [rootdomains = ['.lan']] *)
Definition default_config : Config :=
  {| recursion_available := 1; rootdomains := [".lan"] |}.

(** ** The resolver state *)

(** An [asyncio.Future]: pending, completed by [set_result], or cancelled. *)
Inductive FutureState :=
  | Pending
  | Done (m : Message)
  | Cancelled.

Abbreviation key := (string * Z)%type.

(** A UDP transport made by [create_datagram_endpoint]. *)
Record Endpoint := {
  ep_addr : rdata;
  ep_closed : bool
}.

(** The objects reachable from [self]. [futures] maps a key to the address
    of a [Future] in [heap], so that two holders of one waiter share it;
    [endpoints] lists the transports created so far; [tick] counts the
    suspension points passed, and indexes what the environment answers;
    [now] is the event loop's clock, in seconds. *)
Record Resolver `{Utils} := mkResolver {
  queue : list key;
  futures : gmap key nat;
  heap : list FutureState;
  cache : cache_t;
  endpoints : list Endpoint;
  tick : nat;
  now : nat
}.

Section Engine.
Context `{U : Utils}.

Definition with_queue (v : list key) (st : Resolver) : Resolver :=
  mkResolver _ v (futures st) (heap st) (cache st) (endpoints st) (tick st) (now st).
Definition with_futures (v : gmap key nat) (st : Resolver) : Resolver :=
  mkResolver _ (queue st) v (heap st) (cache st) (endpoints st) (tick st) (now st).
Definition with_heap (v : list FutureState) (st : Resolver) : Resolver :=
  mkResolver _ (queue st) (futures st) v (cache st) (endpoints st) (tick st) (now st).
Definition with_cache (v : cache_t) (st : Resolver) : Resolver :=
  mkResolver _ (queue st) (futures st) (heap st) v (endpoints st) (tick st) (now st).
Definition with_endpoints (v : list Endpoint) (st : Resolver) : Resolver :=
  mkResolver _ (queue st) (futures st) (heap st) (cache st) v (tick st) (now st).
Definition with_tick (v : nat) (st : Resolver) : Resolver :=
  mkResolver _ (queue st) (futures st) (heap st) (cache st) (endpoints st) v
    (now st).
Definition with_now (v : nat) (st : Resolver) : Resolver :=
  mkResolver _ (queue st) (futures st) (heap st) (cache st) (endpoints st)
    (tick st) v.

(** A coroutine body: it runs on the state and either returns or raises;
    what it did to the shared objects before raising stays done. *)
Definition M (T : Type) : Type := Resolver -> result T * Resolver.

Definition ret {T} (v : T) : M T := fun st => (Ok v, st).
Definition raise {T} (e : exn) : M T := fun st => (Raise e, st).
Definition bind {S T} (m : M S) (k : S -> M T) : M T :=
  fun st =>
    match m st with
    | (Ok v, st') => k v st'
    | (Raise e, st') => (Raise e, st')
    end.
Definition gets {T} (f : Resolver -> T) : M T := fun st => (Ok (f st), st).
Definition modify (f : Resolver -> Resolver) : M unit := fun st => (Ok tt, f st).
Definition lift {T} (r : result T) : M T := fun st => (r, st).

End Engine.

Notation "'let*' x ':=' m 'in' k" := (bind m (fun x => k))
  (at level 10, x pattern, m at level 100, k at level 200).

(** ** The environment of one resolution task *)

(** What one attempt against a name server meets: the endpoint does not
    open within 1 second, opening it fails, no datagram arrives within 3
    seconds, or a datagram arrives. *)
Inductive Behaviour :=
  | ConnectTimeout
  | ConnectError
  | ReadTimeout
  | Datagram (data : bytes).

(** The answers of the environment, indexed by [tick]: [net] is the
    behaviour of the name server at an address, [peer] is what a nested
    [self.query(name, qtype)] returns ([None] on its deadline) or raises;
    that nested query is served by another task. *)
Record Env := {
  net : nat -> rdata -> Behaviour;
  peer : nat -> rdata -> Z -> result (option Message)
}.

Section Nameservers.
Context `{U : Utils}.

(** *** [get_nameservers] *)

(** The body of [for rec in self.cache.query(fqdn, types.NS)]: what one
    label depth yields. *)
Definition nameservers_at (c : cache_t) (fqdn : string) : list rdata :=
  flat_map
    (fun rec =>
       let host := r_data rec in
       match ip_type host with
       | None => List.map r_data (cache_query c host (QTypes A_TYPES))
       | Some _ => [host]
       end)
    (cache_query c (Text fqdn) (QType types.NS)).

(** [get_nameservers(fqdn)], as the list the generator yields: [empty]
    stays true exactly while nothing has been yielded. *)
Equations? get_nameservers (c : cache_t) (fqdn : string) : list rdata
  by wf (String.length fqdn) lt :=
  get_nameservers c EmptyString := nil;
  get_nameservers c (String a s) :=
    let fqdn' := (partition_dot (String a s)).2 in
    match nameservers_at c fqdn' with
    | nil => get_nameservers c fqdn'
    | cons ip ips => cons ip ips
    end.
Proof.
  assert (Hle : forall t : string,
             String.length (partition_dot t).2 <= String.length t).
  { induction t as [|b t IH]; simpl; [lia|].
    destruct (Ascii.eqb b "."); simpl; [lia|].
    destruct (partition_dot t) as [[h sep] t']; simpl in *. lia. }
  subst fqdn'. simpl. destruct (Ascii.eqb a "."); simpl; [lia|].
  specialize (Hle s). destruct (partition_dot s) as [[h sep] t]; simpl in *. lia.
Qed.

End Nameservers.

Section Resolve.
Context `{U : Utils}.
Variable cfg : Config.
Variable env : Env.

(** [yield from self.query(name, qtype)] inside a resolver *)
Definition nested_query (name : rdata) (qtype : Z) : M (option Message) :=
  fun st => (peer env (tick st) name qtype, with_tick (S (tick st)) st).

(** *** [query_cache] *)

(** Line 102 reads the name [r], which is bound neither in [query_cache]
    nor at module level. *)
Definition name_r : result DNSRecord := Raise NameError.

(** The records the local-authority step appends. *)
Definition local_ns (fqdn : string) : DNSRecord :=
  mkRecord RESPONSE fqdn types.NS (Text "localhost") (-1).
Definition local_a (fqdn : string) : DNSRecord :=
  mkRecord RESPONSE fqdn types.A (Text "127.0.0.1") (-1).

(** [for rec in cname: cres = yield from self.query(rec.data, qtype) ...] *)
Fixpoint chase_cname (cname : list DNSRecord) (qtype : Z) (res : Message)
  : M Message :=
  match cname with
  | [] => ret res
  | rec :: cname' =>
      let* cres := nested_query (r_data rec) qtype in
      match cres with
      | None => chase_cname cname' qtype res
      | Some cres =>
          if (m_r cres >? 0)%Z then chase_cname cname' qtype res
          else
            let res := set_an res (m_an res ++ m_an cres) in
            let res := set_ns res (m_ns cres) in
            let res := set_ar res (m_ar cres) in
            chase_cname cname' qtype res
      end
  end.

(** [qtype == types.CNAME or rec.qtype != types.CNAME] *)
Definition counts (qtype : Z) (rec : DNSRecord) : bool :=
  (qtype =? types.CNAME)%Z || negb (r_qtype rec =? types.CNAME)%Z.

(** [for rec in data: ...], with the count [n] *)
Fixpoint direct_match (c : cache_t) (fqdn : string) (qtype : Z)
  (data : list DNSRecord) (res : Message) (n : nat) : result (Message * nat) :=
  match data with
  | [] => Ok (res, n)
  | rec :: data' =>
      if (r_qtype rec =? types.NS)%Z then
        match name_r with
        | Raise e => Raise e
        | Ok r =>
            let nres := cache_query c (r_data r) (QTypes A_TYPES) in
            match nres with
            | [] => direct_match c fqdn qtype data' res n
            | _ :: _ =>
                let res := set_ar res (m_ar res ++ nres) in
                let res := set_ns res (m_ns res ++ [rec]) in
                direct_match c fqdn qtype data' res
                  (if (r_qtype rec =? qtype)%Z then S n else n)
            end
        end
      else
        let res := set_an res (m_an res ++ [copy_name rec fqdn]) in
        direct_match c fqdn qtype data' res
          (if counts qtype rec then S n else n)
  end.

(** [list(filter(None, map(fqdn.endswith, self.rootdomains)))] *)
Definition under_rootdomain (fqdn : string) : list bool :=
  List.filter (fun b => b) (List.map (endswith fqdn) (rootdomains cfg)).

(** The local-authority step, lines 112 to 119. *)
Definition local_authority (fqdn : string) (res : Message) (n : nat)
  : Message * nat :=
  match under_rootdomain fqdn with
  | [] => (res, n)
  | _ :: _ =>
      let '(res, n) :=
        match n with
        | O => (set_r res 3, 1)
        | S _ => (res, n)
        end in
      let res := set_aa res 1 in
      let res := set_ns res (m_ns res ++ [local_ns fqdn]) in
      let res := set_ar res (m_ar res ++ [local_a fqdn]) in
      (res, n)
  end.

(** [query_cache(res, fqdn, qtype)]: the response as it leaves the call
    and whether the returned value is truthy ([True]) or not ([None]). *)
Definition query_cache (res : Message) (fqdn : string) (qtype : Z)
  : M (bool * Message) :=
  let* c := gets cache in
  let cname := cache_query c (Text fqdn) (QType types.CNAME) in
  match cname with
  | _ :: _ =>
      let res := set_an res (m_an res ++ cname) in
      if (recursion_available cfg =? 0)%Z || (qtype =? types.CNAME)%Z
      then ret (true, res)
      else
        let* res := chase_cname cname qtype res in
        ret (true, res)
  | [] =>
      let data := cache_query c (Text fqdn) (QType qtype) in
      let* (res, n) := lift (direct_match c fqdn qtype data res 0) in
      let '(res, n) := local_authority fqdn res n in
      ret (negb (n =? 0)%nat, res)
  end.


(** *** [query_remote] *)

(** [loop.create_datagram_endpoint(..., remote_addr = (ip, 53))], once it
    has returned a transport *)
Definition create_datagram_endpoint (ip : rdata) : M nat :=
  fun st =>
    (Ok (length (endpoints st)),
     with_endpoints (endpoints st ++ [{| ep_addr := ip; ep_closed := false |}]) st).

(** [transport.close()] *)
Definition transport_close (t : nat) : M unit :=
  modify (fun st =>
    with_endpoints
      (alter (fun e => {| ep_addr := ep_addr e; ep_closed := true |}) t
         (endpoints st)) st).

(** The [try] block of one candidate, lines 155 to 163. A datagram that
    arrives runs [CallbackProtocol.datagram_received], which closes the
    transport and completes the attempt's future. *)
Definition attempt (qdata : bytes) (ip : rdata) : M bytes :=
  let qid := take 2 qdata in
  let* b := (fun st => (Ok (net env (tick st) ip), with_tick (S (tick st)) st)) in
  match b with
  | ConnectTimeout => raise TimeoutError
  | ConnectError => raise OSError
  | ReadTimeout =>
      let* transport := create_datagram_endpoint ip in
      raise TimeoutError
  | Datagram data =>
      let* transport := create_datagram_endpoint ip in
      let* _ := transport_close transport in
      let* _ := transport_close transport in
      if startswith data qid then ret data else raise DNSError
  end.

(** The [try ... except asyncio.TimeoutError ... except utils.DNSError]
    statement: [Some data] stands for the [else: break] exit. *)
Definition try_attempt (qdata : bytes) (ip : rdata) : M (option bytes) :=
  fun st =>
    match attempt qdata ip st with
    | (Ok data, st') => (Ok (Some data), st')
    | (Raise TimeoutError, st') => (Ok None, st')
    | (Raise DNSError, st') => (Ok None, st')
    | (Raise e, st') => (Raise e, st')
    end.

(** [for ip in nsip: ... else: break]; [None] is the exhaustion of the
    candidates. *)
Fixpoint candidates (qdata : bytes) (nsip : list rdata) : M (option bytes) :=
  match nsip with
  | [] => ret None
  | ip :: nsip' =>
      let* got := try_attempt qdata ip in
      match got with
      | Some data => ret (Some data)
      | None => candidates qdata nsip'
      end
  end.

(** [r.ttl > 0 and r.qtype not in (types.SOA, types.MX)] *)
Definition cacheable (r : DNSRecord) : bool :=
  (r_ttl r >? 0)%Z &&
  negb ((r_qtype r =? types.SOA)%Z || (r_qtype r =? types.MX)%Z).

(** [for r in cres.an + cres.ns + cres.ar: ...], lines 173 to 175 *)
Fixpoint cache_records (recs : list DNSRecord) (c : cache_t) : cache_t :=
  match recs with
  | [] => c
  | r :: recs' =>
      cache_records recs' (if cacheable r then add_host (r_name r) r c else c)
  end.

(** [name.lower()] on a value that need not be a string *)
Definition str_lower (v : rdata) : result string :=
  match v with
  | Text s => Ok (lower s)
  | _ => Raise AttributeError
  end.

(** [for r in cres.an: ...], lines 176 to 182; [qname] is
    [req.qd[0].name]. *)
Fixpoint absorb_an (qname : rdata) (qtype : Z) (an : list DNSRecord)
  (res : Message) (cname : list rdata) (n : nat)
  : result (Message * list rdata * nat) :=
  match an with
  | [] => Ok (res, cname, n)
  | r :: an' =>
      let res := set_an res (m_an res ++ [r]) in
      let cname :=
        if (r_qtype r =? types.CNAME)%Z then cname ++ [r_data r] else cname in
      match str_lower qname with
      | Raise e => Raise e
      | Ok q =>
          let n :=
            if String.eqb (lower (r_name r)) q && counts qtype r
            then S n else n in
          absorb_an qname qtype an' res cname n
      end
  end.

(** [for r in cres.ns: ...], lines 183 to 186 *)
Fixpoint absorb_ns (qtype : Z) (ns : list DNSRecord) (res : Message) (n : nat)
  : Message * nat :=
  match ns with
  | [] => (res, n)
  | r :: ns' =>
      let res := set_ns res (m_ns res ++ [r]) in
      let n :=
        if (r_qtype r =? types.SOA)%Z || (qtype =? types.NS)%Z
        then S n else n in
      absorb_ns qtype ns' res n
  end.

(** [i.qtype in A_TYPES] *)
Definition in_A_TYPES (r : DNSRecord) : bool :=
  existsb (Z.eqb (r_qtype r)) A_TYPES.

(** [i.data[0]] *)
Definition data_0 (v : rdata) : result rdata :=
  match v with
  | NoData => Raise TypeError
  | Text EmptyString => Raise IndexError
  | Text (String c _) => Ok (Text (String c EmptyString))
  | Fields [] => Raise IndexError
  | Fields (x :: _) => Ok (Text x)
  end.

(** [for i in cres.ns: ...], lines 190 to 202: the name servers' own
    addresses, asked through [self.query(host)]. *)
Fixpoint resolve_hosts (ns : list DNSRecord) (nsip : list rdata)
  : M (list rdata) :=
  match ns with
  | [] => ret nsip
  | i :: ns' =>
      let* host :=
        if (r_qtype i =? types.SOA)%Z then lift (data_0 (r_data i))
        else ret (r_data i) in
      let* nsip := (fun st =>
        match nested_query host types.ANY st with
        | (Raise _, st') => (Ok nsip, st')
        | (Ok None, st') => (Ok nsip, st')
        | (Ok (Some ns_), st') =>
            (Ok (nsip ++ List.map r_data (List.filter in_A_TYPES (m_an ns_))), st')
        end) in
      resolve_hosts ns' nsip
  end.

(** The part of an iteration that follows the candidate loop, lines 172
    to 204. *)
Definition absorb_response (qname : rdata) (qtype : Z) (data : bytes)
  (res : Message) (n : nat) : M (Message * list rdata * list rdata * nat) :=
  let* cres := lift (raw_parse data) in
  let* _ := modify (fun st =>
    with_cache (cache_records (m_an cres ++ m_ns cres ++ m_ar cres) (cache st)) st) in
  let* (res, cname, n) := lift (absorb_an qname qtype (m_an cres) res [] n) in
  let '(res, n) := absorb_ns qtype (m_ns cres) res n in
  let res := set_ar res (m_ar res ++ m_ar cres) in
  let nsip := List.map r_data (List.filter in_A_TYPES (m_ar cres)) in
  let* nsip :=
    match nsip with
    | [] => resolve_hosts (m_ns cres) []
    | _ :: _ => ret nsip
    end in
  let res := if (m_r cres >? 0)%Z then set_r res (m_r cres) else res in
  ret (res, nsip, cname, n).

(** [while not n: ...]. The source puts no bound on the iterations, so
    the loop runs on [fuel]; [None] is the exhaustion of the fuel. *)
Fixpoint remote_loop (fuel : nat) (qtype : Z) (nsip cname : list rdata)
  (res : Message) (n : nat) : M (option (Message * nat)) :=
  match fuel with
  | O => ret None
  | S fuel' =>
      match n with
      | S _ => ret (Some (res, n))
      | O =>
          match cname with
          | [] => ret (Some (res, n))
          | qname :: _ =>
              let qdata := pack qname qtype in
              let* got := candidates qdata nsip in
              match got with
              | None => ret (Some (res, n))
              | Some data =>
                  let* (res, nsip, cname, n) :=
                    absorb_response qname qtype data res n in
                  remote_loop fuel' qtype nsip cname res n
              end
          end
      end
  end.

(** [query_remote(res, fqdn, qtype)]; the generator [get_nameservers] is
    first consumed by the first candidate loop, before the task has
    written to the cache. *)
Definition query_remote (fuel : nat) (res : Message) (fqdn : string) (qtype : Z)
  : M (option (bool * Message)) :=
  let* c := gets cache in
  let nsip := get_nameservers c fqdn in
  let* out := remote_loop fuel qtype nsip [Text fqdn] res 0 in
  match out with
  | None => ret None
  | Some (res, n) => ret (Some (negb (n =? 0)%nat, res))
  end.

End Resolve.

(** ** The single-flight table and the dispatcher *)

(** A caller suspended in [asyncio.wait_for(future, 3.0)]. *)
Record Waiting := {
  w_future : nat;
  w_deadline : nat
}.

(** What a suspended call has become when the event loop looks at it. *)
Inductive Poll (T : Type) :=
  | Blocked
  | Returned (v : T).
Arguments Blocked {T}.
Arguments Returned {T} v.

(** The deadline of [query], 3.0 seconds, on the clock [now]. *)
Definition query_deadline : nat := 3.

Section SingleFlight.
Context `{U : Utils}.
Variable cfg : Config.
Variable env : Env.

(** [asyncio.Future()] *)
Definition new_future : M nat :=
  fun st => (Ok (length (heap st)), with_heap (heap st ++ [Pending]) st).

(** [query_future(fqdn, qtype)]. The body runs under [self.lock]; the
    queue is unbounded, so [queue.put] does not suspend and the body is
    one step of the event loop. *)
Definition query_future (fqdn : string) (qtype : Z) : M nat :=
  let key := (fqdn, qtype) in
  let* future := gets (fun st => futures st !! key) in
  match future with
  | Some future => ret future
  | None =>
      let* future := new_future in
      let* _ := modify (fun st => with_futures (<[key := future]> (futures st)) st) in
      let* _ := modify (fun st => with_queue (queue st ++ [key]) st) in
      ret future
  end.

(** [asyncio.wait_for(future, timeout)] when it is woken, by the future or
    by its timer: a completed future gives its result, a cancelled one
    raises [CancelledError], and a future still pending at the deadline is
    cancelled and [TimeoutError] raised. Before the deadline a pending
    future leaves the caller suspended. An address outside the heap is no
    [Future]; [query_begin] never hands one out. *)
Definition wait_for (w : Waiting) : M (Poll Message) :=
  fun st =>
    match heap st !! w_future w with
    | Some (Done m) => (Ok (Returned m), st)
    | Some Cancelled => (Raise CancelledError, st)
    | Some Pending =>
        if (w_deadline w <=? now st)%nat
        then (Raise TimeoutError,
              with_heap (<[w_future w := Cancelled]> (heap st)) st)
        else (Ok Blocked, st)
    | None => (Raise InvalidStateError, st)
    end.

(** [query(fqdn, qtype)] up to its suspension in [wait_for]. *)
Definition query_begin (fqdn : string) (qtype : Z) : M Waiting :=
  let* future := query_future fqdn qtype in
  let* t := gets now in
  ret {| w_future := future; w_deadline := t + query_deadline |}.

(** [query(fqdn, qtype)] from its suspension on: the [try] statement
    around [wait_for]. [Returned None] is the bare [return]. *)
Definition query_end (w : Waiting) : M (Poll (option Message)) :=
  fun st =>
    match wait_for w st with
    | (Ok (Returned res), st') => (Ok (Returned (Some res)), st')
    | (Ok Blocked, st') => (Ok Blocked, st')
    | (Raise TimeoutError, st') => (Ok (Returned None), st')
    | (Raise e, st') => (Raise e, st')
    end.

(** [self.futures[key]] *)
Definition futures_get (k : key) : M nat :=
  fun st =>
    match futures st !! k with
    | Some future => (Ok future, st)
    | None => (Raise KeyError, st)
    end.

(** [self.futures.pop(key)] *)
Definition futures_pop (k : key) : M nat :=
  fun st =>
    match futures st !! k with
    | Some future => (Ok future, with_futures (delete k (futures st)) st)
    | None => (Raise KeyError, st)
    end.

(** [future.cancelled()] *)
Definition cancelled (future : nat) : M bool :=
  gets (fun st =>
    match heap st !! future with
    | Some Cancelled => true
    | _ => false
    end).

(** [future.set_result(res)] *)
Definition set_result (future : nat) (res : Message) : M unit :=
  fun st =>
    match heap st !! future with
    | Some Pending => (Ok tt, with_heap (<[future := Done res]> (heap st)) st)
    | _ => (Raise InvalidStateError, st)
    end.

(** [(yield from self.query_cache(...)) or (yield from self.query_remote(...))] *)
Definition resolve (fuel : nat) (res : Message) (fqdn : string) (qtype : Z)
  : M (option (bool * Message)) :=
  let* (hit, res) := query_cache cfg env res fqdn qtype in
  if hit then ret (Some (true, res))
  else query_remote env fuel res fqdn qtype.

(** [query_key(key)]; [None] when the loop of [query_remote] outlasts
    [fuel]. *)
Definition query_key (fuel : nat) (k : key) : M (option unit) :=
  let '(fqdn, qtype) := k in
  let res := DNSMessage (recursion_available cfg) in
  let res := set_qd res (m_qd res ++ [question fqdn qtype]) in
  let* future := futures_get k in
  let* out := resolve fuel res fqdn qtype in
  match out with
  | None => ret None
  | Some (ret_, res) =>
      let res := if ret_ then res else set_r res 2 in
      let* _ := futures_pop k in
      let* c := cancelled future in
      if c then ret (Some tt)
      else
        let* _ := set_result future res in
        ret (Some tt)
  end.

(** One turn of [loop]: [key = yield from self.queue.get()], then the
    task [query_key(key)], whose exception, if any, ends that task only. *)
Definition dispatch (fuel : nat) (st : Resolver) : Resolver :=
  match queue st with
  | [] => st
  | k :: rest => (query_key fuel k (with_queue rest st)).2
  end.

End SingleFlight.

(** ** The event loop, seen from outside *)

(** What can happen next in the event loop: a caller enters [query] and
    suspends; a suspended caller is looked at again; the dispatcher takes
    the next key and its task runs; time passes. *)
Inductive Op :=
  | Call (fqdn : string) (qtype : Z)
  | Wake (w : Waiting)
  | Turn (fuel : nat)
  | Sleep (d : nat).

Inductive Event :=
  | Waits (w : Waiting)
  | Woke (r : result (Poll (option Message)))
  | Idle.

Definition is_turn (o : Op) : bool :=
  match o with
  | Turn _ => true
  | _ => false
  end.

(** The waiter handed to a caller. *)
Definition waiter_of (e : Event) : option nat :=
  match e with
  | Waits w => Some (w_future w)
  | _ => None
  end.

Section EventLoop.
Context `{U : Utils}.
Variable cfg : Config.
Variable env : Env.

Definition step (o : Op) (st : Resolver) : Event * Resolver :=
  match o with
  | Call fqdn qtype =>
      match query_begin fqdn qtype st with
      | (Ok w, st') => (Waits w, st')
      | (Raise _, st') => (Idle, st')
      end
  | Wake w => let '(r, st') := query_end w st in (Woke r, st')
  | Turn fuel => (Idle, dispatch cfg env fuel st)
  | Sleep d => (Idle, with_now (now st + d) st)
  end.

Fixpoint run (ops : list Op) (st : Resolver) : list Event * Resolver :=
  match ops with
  | [] => ([], st)
  | o :: ops' =>
      let '(e, st') := step o st in
      let '(es, st'') := run ops' st' in
      (e :: es, st'')
  end.

End EventLoop.

(** ** A cache and a codec to run the resolver on *)

Module Double.

(** [str.rstrip('.')] *)
Fixpoint rstrip_dot (s : string) : string :=
  match s with
  | EmptyString => EmptyString
  | String c s' =>
      match rstrip_dot s' with
      | EmptyString =>
          if Ascii.eqb c "."%char then EmptyString else String c EmptyString
      | t => String c t
      end
  end.

Definition normalise (s : string) : string := lower (rstrip_dot s).

Definition selects (sel : qsel) (r : DNSRecord) : bool :=
  match sel with
  | QType q => (q =? types.ANY)%Z || (r_qtype r =? q)%Z
  | QTypes qs => existsb (Z.eqb (r_qtype r)) qs
  end.

(** Modelled from the spec: the cache of [utils.Hosts], a mapping from
    the normalised name to the list of records under that name. [query]
    yields the records whose type matches, every record for [ANY], and
    for a set of types the records whose type lies in the set. *)
Definition query (c : gmap string (list DNSRecord)) (name : rdata) (sel : qsel)
  : list DNSRecord :=
  match name with
  | Text s => List.filter (selects sel) (default [] (c !! normalise s))
  | _ => []
  end.

(** Modelled from the spec: [add] inserts the record under its
    normalised name, and keeps duplicates. *)
Definition add (name : string) (r : DNSRecord) (c : gmap string (list DNSRecord))
  : gmap string (list DNSRecord) :=
  <[normalise name := default [] (c !! normalise name) ++ [r]]> c.

Definition digit_or_dot (c : ascii) : bool :=
  Ascii.eqb c "."%char ||
  ((48 <=? nat_of_ascii c)%nat && (nat_of_ascii c <=? 57)%nat).

(** A stand-in for [utils.ip_type]: dotted decimal strings are version
    4 addresses, nothing else is an address. *)
Definition ip (v : rdata) : option Z :=
  match v with
  | Text (String c s) =>
      if forallb digit_or_dot (list_ascii_of_string (String c s))
      then Some 4%Z else None
  | _ => None
  end.

Definition byte_of_ascii (c : ascii) : byte :=
  default x00 (Byte.of_nat (nat_of_ascii c)).

(** A stand-in for the packer: the transaction id [0xbeef], then the
    name and the type code. *)
Definition pack (name : rdata) (qtype : Z) : bytes :=
  [xbe; xef] ++
  match name with
  | Text s => List.map byte_of_ascii (list_ascii_of_string s)
  | _ => []
  end ++ [default x00 (Byte.of_nat (Z.to_nat qtype))].

(** A stand-in for the parser: the third byte of a datagram selects one
    of the messages of [wire]. *)
Definition parse (wire : list Message) (data : bytes) : result Message :=
  match data with
  | _ :: _ :: b :: _ =>
      match wire !! Byte.to_nat b with
      | Some m => Ok m
      | None => Raise DNSError
      end
  | _ => Raise DNSError
  end.

Definition utils (wire : list Message) : Utils :=
  Build_Utils (gmap string (list DNSRecord)) query add ip pack (parse wire).

(** An event loop that has just been built, with the given cache. *)
Definition fresh (wire : list Message) (c : gmap string (list DNSRecord))
  : @Resolver (utils wire) :=
  @mkResolver (utils wire) [] ∅ [] c [] 0 0.

(** An environment where no server answers and every nested query runs
    into its deadline. *)
Definition silent : Env :=
  {| net := fun _ _ => ReadTimeout; peer := fun _ _ _ => Ok None |}.

End Double.

(** ** Scenarios *)

Module Scenario.

Definition cname_www : DNSRecord :=
  mkRecord RESPONSE "www.lan" types.CNAME (Text "host.lan") 300.
Definition ns_example : DNSRecord :=
  mkRecord RESPONSE "example.com" types.NS (Text "1.2.3.4") (-1).
Definition a_host : DNSRecord :=
  mkRecord RESPONSE "host.lan" types.A (Text "10.0.0.7") (-1).

(** A cache that holds a CNAME for a name of the local zone. *)
Definition cache_cname : gmap string (list DNSRecord) :=
  Double.add "www.lan" cname_www ∅.

(** A cache that holds a name server for [example.com], by address. *)
Definition cache_ns : gmap string (list DNSRecord) :=
  Double.add "example.com" ns_example ∅.

(** A cache that holds an address for a name of the local zone. *)
Definition cache_host : gmap string (list DNSRecord) :=
  Double.add "host.lan" a_host ∅.

(** A response with a cacheable answer, an SOA record in the authority
    section and an additional record whose ttl is 0. *)
Definition a_test : DNSRecord :=
  mkRecord RESPONSE "a.test" types.A (Text "192.0.2.1") 60.
Definition soa_test : DNSRecord :=
  mkRecord RESPONSE "test" types.SOA (Fields ["ns.test"; "root.test"]) 60.
Definition a_stale : DNSRecord :=
  mkRecord RESPONSE "ns.test" types.A (Text "192.0.2.53") 0.
Definition reply : Message :=
  {| m_qd := []; m_an := [a_test]; m_ns := [soa_test]; m_ar := [a_stale];
     m_ra := 1; m_aa := 0; m_r := 0 |}.

(** The collaborators, without and with [reply] on the wire. *)
Definition U0 : Utils := Double.utils [].
Definition U1 : Utils := Double.utils [reply].

(** The request for [a.test], a reply to it and a datagram with another
    transaction id. *)
Definition request : bytes := Double.pack (Text "a.test") types.A.
Definition good : bytes := [xbe; xef; x00].
Definition bad : bytes := [x12; x34; x00].

(** A network whose first datagram carries the wrong id. *)
Definition spoofed : Env :=
  {| net := fun t _ => match t with O => Datagram bad | S _ => Datagram good end;
     peer := fun _ _ _ => Ok None |}.

Definition server1 : rdata := Text "192.0.2.1".
Definition server2 : rdata := Text "192.0.2.2".

(** Two callers of one key, the second a second after the first, at
    the first caller's deadline. *)
Definition caller1 : Waiting := {| w_future := 0; w_deadline := 3 |}.
Definition caller2 : Waiting := {| w_future := 0; w_deadline := 4 |}.
Definition two_callers : @Resolver (Double.utils []) :=
  (run default_config Double.silent
     [Call "a.test" types.A; Sleep 1; Call "a.test" types.A; Sleep 2]
     (Double.fresh [] ∅)).2.

(** A caller of [host.lan], before the dispatcher's turn. *)
Definition one_caller : @Resolver (Double.utils []) :=
  (run default_config Double.silent [Call "host.lan" types.A]
     (Double.fresh [] cache_host)).2.

(** The task for [(example.com, NS)] has met the NS record and died. *)
Definition died : @Resolver (Double.utils []) :=
  (run default_config Double.silent [Call "example.com" types.NS; Turn 1]
     (Double.fresh [] cache_ns)).2.

(** The first caller runs into its deadline; a later caller joins. *)
Definition after_death : list Op :=
  [Sleep 3; Wake caller1; Call "example.com" types.NS; Sleep 3;
   Wake {| w_future := 0; w_deadline := 6 |}].

End Scenario.

(** ** The claims as the specification words them *)

Section ClaimedWalk.
Context `{U : Utils}.

(** Name-server discovery as the specification words it: the cache is
    asked for NS records at the given name first, then one label is
    stripped at a time, down to the empty label; the walk stops at the
    first depth that yields an address. *)
Equations? nameserver_walk (c : cache_t) (fqdn : string) : list rdata
  by wf (String.length fqdn) lt :=
  nameserver_walk c fqdn with nameservers_at c fqdn := {
    | cons ip ips := cons ip ips;
    | nil with fqdn := {
        | EmptyString := nil;
        | String a s := nameserver_walk c (partition_dot (String a s)).2 } }.
Proof.
  assert (Hle : forall t : string,
             String.length (partition_dot t).2 <= String.length t).
  { induction t as [|b t IH]; simpl; [lia|].
    destruct (Ascii.eqb b "."); simpl; [lia|].
    destruct (partition_dot t) as [[h sep] t']; simpl in *. lia. }
  simpl. destruct (Ascii.eqb a "."); simpl; [lia|].
  specialize (Hle s). destruct (partition_dot s) as [[h sep] t]; simpl in *. lia.
Qed.

End ClaimedWalk.

Section Claims.
Context `{U : Utils}.
Variable cfg : Config.
Variable env : Env.

(** The local-authority claim without its exceptions: under a configured
    suffix the cache resolver returns true with [aa = 1] and the two
    synthetic records. *)
Definition local_authority_claim (res : Message) (fqdn : string) (qtype : Z)
  (st : Resolver) : Prop :=
  (exists suffix, In suffix (rootdomains cfg) /\ endswith fqdn suffix = true) ->
  exists res',
    (query_cache cfg env res fqdn qtype st).1 = Ok (true, res') /\
    m_aa res' = 1%Z /\
    In (local_ns fqdn) (m_ns res') /\
    In (local_a fqdn) (m_ar res').

(** The dead-waiter claim about one later caller: it comes back with the
    absent value. *)
Definition absent_after_deadline (e : Event) : Prop :=
  e = Woke (Ok (Returned None)).

(** A key whose task has died: its entry is in the table, the key is not
    queued, no other key shares its waiter, and the waiter has not been
    completed. *)
Definition dead (k : key) (f : nat) (st : Resolver) : Prop :=
  futures st !! k = Some f /\
  (k ∉ queue st) /\
  map_Forall (fun k' g => g < length (heap st) /\ (g = f -> k' = k))
    (futures st) /\
  (heap st !! f = Some Pending \/ heap st !! f = Some Cancelled).

End Claims.

(** ** The rest of the module *)

(** *** The root hints, lines 23 to 36 *)

(** The characters [str.split()] splits at, within ASCII. *)
Definition is_space (c : ascii) : bool :=
  let n := nat_of_ascii c in
  ((9 <=? n)%nat && (n <=? 13)%nat) || ((28 <=? n)%nat && (n <=? 32)%nat).

(** [str.split()], with the field being read in [cur] *)
Fixpoint split_from (s cur : string) : list string :=
  match s with
  | EmptyString =>
      match cur with
      | EmptyString => []
      | String _ _ => [cur]
      end
  | String c s' =>
      if is_space c then
        match cur with
        | EmptyString => split_from s' EmptyString
        | String _ _ => cur :: split_from s' EmptyString
        end
      else split_from s' (String.append cur (String c EmptyString))
  end.

Definition split (line : string) : list string := split_from line EmptyString.

(** [line.startswith(';')] *)
Definition is_comment (line : string) : bool :=
  match line with
  | String c _ => Ascii.eqb c ";"%char
  | EmptyString => false
  end.

(** The body of the loop of [get_root_servers] after the comment test:
    four calls of [next(it)] on the non-empty fields of the line; [None]
    when the fields run out. [MAP_TYPES] is [types.MAP_TYPES.get]. *)
Definition root_entry (MAP_TYPES : string -> option Z) (line : string)
  : option (string * Z * string) :=
  let it := List.filter (fun f => negb (String.eqb f "")) (split line) in
  match it with
  | name :: expires :: qtype :: data :: _ =>
      Some (Double.rstrip_dot name, default 0%Z (MAP_TYPES qtype),
            Double.rstrip_dot data)
  | _ => None
  end.

(** [get_root_servers], on the lines of the file: the entries it yields
    and whether a line ran out of fields, which ends the generator. *)
Fixpoint get_root_servers (MAP_TYPES : string -> option Z) (lines : list string)
  : list (string * Z * string) * bool :=
  match lines with
  | [] => ([], false)
  | line :: lines' =>
      if is_comment line then get_root_servers MAP_TYPES lines'
      else
        match root_entry MAP_TYPES line with
        | None => ([], true)
        | Some e =>
            let '(es, short) := get_root_servers MAP_TYPES lines' in
            (e :: es, short)
        end
  end.

(** *** Helpers of the statements *)

(** What the CNAME branch of [query_cache] takes from a nested query:
    the answers of a result that is neither absent nor an error. *)
Definition accepted_answers (o : result (option Message)) : list DNSRecord :=
  match o with
  | Ok (Some cres) => if (m_r cres >? 0)%Z then [] else m_an cres
  | _ => []
  end.

(** The keys of a list of calls that are new to the table, each at its
    first occurrence. *)
Fixpoint first_seen (seen : gset (string * Z)) (ks : list (string * Z))
  : list (string * Z) :=
  match ks with
  | [] => []
  | k :: ks' =>
      if decide (k ∈ seen) then first_seen seen ks'
      else k :: first_seen ({[k]} ∪ seen) ks'
  end.

(** [i.data[0] if i.qtype == types.SOA else i.data], line 191 *)
Definition ns_host (i : DNSRecord) : result rdata :=
  if (r_qtype i =? types.SOA)%Z then data_0 (r_data i) else Ok (r_data i).

(** What lines 194 to 202 add to [nsip] for one name server: the A and
    AAAA data of the answers of the nested query, nothing when that
    query raises or returns nothing. *)
Definition host_addresses (o : result (option Message)) : list rdata :=
  match o with
  | Ok (Some ns_) => List.map r_data (List.filter in_A_TYPES (m_an ns_))
  | _ => []
  end.

Section TableOk.
Context `{U : Utils}.

(** A table in order: no key is queued twice, every queued key has its
    entry, every entry points to a waiter of the heap that has not been
    completed, and no two keys share a waiter. *)
Definition table_ok (st : Resolver) : Prop :=
  NoDup (queue st) /\
  (forall k, k ∈ queue st -> is_Some (futures st !! k)) /\
  map_Forall
    (fun _ g => g < length (heap st) /\
                (heap st !! g = Some Pending \/ heap st !! g = Some Cancelled))
    (futures st) /\
  (forall k1 k2 g,
      futures st !! k1 = Some g -> futures st !! k2 = Some g -> k1 = k2).

End TableOk.

(** * Properties *)

(** ** The single-flight table *)

Section SingleFlightFacts.
Context `{U : Utils}.
Variable cfg : Config.
Variable env : Env.

Lemma query_future_joins (st : Resolver) fqdn qtype f :
  futures st !! (fqdn, qtype) = Some f ->
  query_future fqdn qtype st = (Ok f, st).
Proof. intros Hf. unfold query_future, bind, gets, ret. by rewrite Hf. Qed.

Lemma query_future_creates (st : Resolver) fqdn qtype :
  futures st !! (fqdn, qtype) = None ->
  query_future fqdn qtype st =
    (Ok (length (heap st)),
     mkResolver _ (queue st ++ [(fqdn, qtype)])
       (<[(fqdn, qtype) := length (heap st)]> (futures st))
       (heap st ++ [Pending]) (cache st) (endpoints st) (tick st) (now st)).
Proof. intros Hf. unfold query_future, bind, gets, ret. by rewrite Hf. Qed.

Lemma query_future_stored (st : Resolver) fqdn qtype :
  exists f st',
    query_future fqdn qtype st = (Ok f, st') /\
    futures st' !! (fqdn, qtype) = Some f /\
    forall k g, futures st !! k = Some g -> futures st' !! k = Some g.
Proof.
  destruct (futures st !! (fqdn, qtype)) as [f|] eqn:Hf.
  - exists f, st. rewrite (query_future_joins _ _ _ _ Hf). auto.
  - eexists _, _. rewrite (query_future_creates _ _ _ Hf).
    split; [reflexivity|]. simpl. split; [apply lookup_insert_eq|].
    intros k g Hk. rewrite lookup_insert_ne; [done|].
    intros <-. rewrite Hf in Hk. discriminate.
Qed.

Lemma step_call (st : Resolver) fqdn qtype :
  exists w st',
    step cfg env (Call fqdn qtype) st = (Waits w, st') /\
    futures st' !! (fqdn, qtype) = Some (w_future w) /\
    forall k g, futures st !! k = Some g -> futures st' !! k = Some g.
Proof.
  destruct (query_future_stored st fqdn qtype) as (f & st' & Hq & Hf & Hk).
  exists {| w_future := f; w_deadline := now st' + query_deadline |}, st'.
  simpl. unfold query_begin, bind, gets, ret. rewrite Hq. auto.
Qed.

Lemma wait_for_futures (w : Waiting) (st : Resolver) :
  futures (wait_for w st).2 = futures st.
Proof.
  unfold wait_for. destruct (heap st !! w_future w) as [[| |]|]; try done.
  by destruct (w_deadline w <=? now st)%nat.
Qed.

Lemma query_end_futures (w : Waiting) (st : Resolver) :
  futures (query_end w st).2 = futures st.
Proof.
  unfold query_end. pose proof (wait_for_futures w st) as Hw.
  destruct (wait_for w st) as [[[|]|[]] st']; simpl in *; done.
Qed.

(** Outside the dispatcher's turns nothing leaves the table. *)
Lemma step_keeps (o : Op) (st : Resolver) k g :
  is_turn o = false ->
  futures st !! k = Some g ->
  futures (step cfg env o st).2 !! k = Some g.
Proof.
  intros Ho Hk. destruct o as [fqdn qtype|w|fuel|d]; try done.
  - destruct (step_call st fqdn qtype) as (w & st' & -> & _ & Hkeep). auto.
  - simpl. pose proof (query_end_futures w st) as Hq.
    destruct (query_end w st) as [r st']; simpl in *. by rewrite Hq.
Qed.

Lemma run_joins (ops : list Op) : forall (st : Resolver) fqdn qtype g j,
  forallb (fun o => negb (is_turn o)) ops = true ->
  futures st !! (fqdn, qtype) = Some g ->
  ops !! j = Some (Call fqdn qtype) ->
  waiter_of <$> (run cfg env ops st).1 !! j = Some (Some g).
Proof.
  induction ops as [|o ops IH]; intros st fqdn qtype g j Hops Hg Hj; [done|].
  simpl in Hops. apply andb_prop in Hops as [Ho Hops].
  apply negb_true_iff in Ho.
  simpl. destruct (step cfg env o st) as [e st1] eqn:Hstep.
  destruct (run cfg env ops st1) as [es st2] eqn:Hrun.
  destruct j as [|j]; simpl in *.
  - injection Hj as ->. simpl in Hstep. unfold query_begin, bind, gets, ret in Hstep.
    rewrite (query_future_joins _ _ _ _ Hg) in Hstep. by injection Hstep as <- <-.
  - pose proof (step_keeps o st _ _ Ho Hg) as Hkeep. rewrite Hstep in Hkeep.
    specialize (IH st1 fqdn qtype g j Hops Hkeep Hj). by rewrite Hrun in IH.
Qed.

Lemma run_call_waits (ops : list Op) : forall (st : Resolver) fqdn qtype j,
  ops !! j = Some (Call fqdn qtype) ->
  exists f, waiter_of <$> (run cfg env ops st).1 !! j = Some (Some f).
Proof.
  induction ops as [|o ops IH]; intros st fqdn qtype j Hj; [done|].
  simpl. destruct (step cfg env o st) as [e st1] eqn:Hstep.
  destruct (run cfg env ops st1) as [es st2] eqn:Hrun.
  destruct j as [|j]; simpl in *.
  - injection Hj as ->.
    destruct (step_call st fqdn qtype) as (w & st' & Hs & _).
    rewrite Hs in Hstep. injection Hstep as <- <-. by exists (w_future w).
  - specialize (IH st1 fqdn qtype j Hj). by rewrite Hrun in IH.
Qed.

Lemma run_shares_lt (ops : list Op) : forall (st : Resolver) fqdn qtype i j,
  forallb (fun o => negb (is_turn o)) ops = true ->
  (i < j)%nat ->
  ops !! i = Some (Call fqdn qtype) ->
  ops !! j = Some (Call fqdn qtype) ->
  exists f, waiter_of <$> (run cfg env ops st).1 !! i = Some (Some f) /\
            waiter_of <$> (run cfg env ops st).1 !! j = Some (Some f).
Proof.
  induction ops as [|o ops IH]; intros st fqdn qtype i j Hops Hij Hi Hj; [done|].
  simpl in Hops. apply andb_prop in Hops as [Ho Hops].
  simpl. destruct (step cfg env o st) as [e st1] eqn:Hstep.
  destruct (run cfg env ops st1) as [es st2] eqn:Hrun.
  destruct j as [|j]; [lia|]. destruct i as [|i]; simpl in *.
  - injection Hi as ->.
    destruct (step_call st fqdn qtype) as (w & st' & Hs & Hf & _).
    rewrite Hs in Hstep. injection Hstep as <- <-.
    exists (w_future w). split; [done|].
    pose proof (run_joins ops st' fqdn qtype _ j Hops Hf Hj) as Hr.
    by rewrite Hrun in Hr.
  - assert (Hlt : (i < j)%nat) by lia.
    specialize (IH st1 fqdn qtype i j Hops Hlt Hi Hj). by rewrite Hrun in IH.
Qed.

(** C1. The pending map [self.futures] holds at most one waiter for a key
    [(name, qtype)]. [query_future] returns the waiter stored under the
    key when there is one, leaving the state as it is; otherwise it makes
    a fresh waiter (an address the heap did not hold, now pending), stores
    it under the key and puts the key at the end of the work queue. Hence
    a caller that arrives while the entry is still in the table gets the
    waiter of the first caller, and all callers for one key between two
    turns of the dispatcher hold the same waiter. *)
Theorem query_future_single_flight (st : Resolver) (fqdn : string) (qtype : Z) :
  (forall f g,
      futures st !! (fqdn, qtype) = Some f ->
      futures st !! (fqdn, qtype) = Some g -> f = g) /\
  (forall f,
      futures st !! (fqdn, qtype) = Some f ->
      query_future fqdn qtype st = (Ok f, st)) /\
  (futures st !! (fqdn, qtype) = None ->
      heap st !! length (heap st) = None /\
      query_future fqdn qtype st =
        (Ok (length (heap st)),
         mkResolver _ (queue st ++ [(fqdn, qtype)])
           (<[(fqdn, qtype) := length (heap st)]> (futures st))
           (heap st ++ [Pending]) (cache st) (endpoints st) (tick st) (now st))) /\
  (forall f st1 st2,
      query_future fqdn qtype st = (Ok f, st1) ->
      futures st2 !! (fqdn, qtype) = futures st1 !! (fqdn, qtype) ->
      query_future fqdn qtype st2 = (Ok f, st2)) /\
  (forall ops i j,
      forallb (fun o => negb (is_turn o)) ops = true ->
      ops !! i = Some (Call fqdn qtype) ->
      ops !! j = Some (Call fqdn qtype) ->
      exists f,
        waiter_of <$> (run cfg env ops st).1 !! i = Some (Some f) /\
        waiter_of <$> (run cfg env ops st).1 !! j = Some (Some f)).
Proof.
  split; [congruence|]. split; [apply query_future_joins|].
  split; [|split].
  - intros Hnone. split; [|by apply query_future_creates].
    apply lookup_ge_None. lia.
  - intros f st1 st2 Hq Hsame.
    destruct (query_future_stored st fqdn qtype) as (f' & st' & Hq' & Hf & _).
    rewrite Hq in Hq'. injection Hq' as <- <-.
    apply query_future_joins. by rewrite Hsame.
  - intros ops i j Hops Hi Hj.
    destruct (Nat.lt_trichotomy i j) as [Hlt|[->|Hgt]].
    + by apply (run_shares_lt ops st fqdn qtype i j).
    + destruct (run_call_waits ops st fqdn qtype j Hj) as (f & Hf).
      by exists f.
    + destruct (run_shares_lt ops st fqdn qtype j i Hops Hgt Hj Hi) as (f & ? & ?).
      by exists f.
Qed.

End SingleFlightFacts.

(** ** The remote resolver: what a response leaves in the cache *)

Section RemoteFacts.
Context `{U : Utils}.
Variable env : Env.

Lemma cache_records_filter (recs : list DNSRecord) : forall c : cache_t,
  cache_records recs c =
  fold_left (fun c r => add_host (r_name r) r c) (List.filter cacheable recs) c.
Proof.
  induction recs as [|r recs IH]; intros c; simpl; [done|].
  rewrite IH. by destruct (cacheable r).
Qed.

Lemma cacheable_spec (r : DNSRecord) :
  cacheable r = true <->
  (0 < r_ttl r)%Z /\ r_qtype r <> types.SOA /\ r_qtype r <> types.MX.
Proof.
  unfold cacheable.
  rewrite andb_true_iff, negb_true_iff, orb_false_iff, !Z.eqb_neq.
  rewrite Z.gtb_lt. tauto.
Qed.

Lemma absorb_an_sections qname qtype (an : list DNSRecord) :
  forall res cname n res' cname' n',
  absorb_an qname qtype an res cname n = Ok (res', cname', n') ->
  m_an res' = m_an res ++ an /\ m_ns res' = m_ns res /\ m_ar res' = m_ar res.
Proof.
  induction an as [|r an IH]; intros res cname n res' cname' n' H; simpl in H.
  - injection H as <- <- <-. by rewrite app_nil_r.
  - destruct (str_lower qname) as [q|e]; [|done].
    apply IH in H as (Han & Hns & Har). simpl in *.
    by rewrite Han, <- app_assoc.
Qed.

Lemma absorb_ns_sections qtype (ns : list DNSRecord) :
  forall res n,
  m_an (absorb_ns qtype ns res n).1 = m_an res /\
  m_ns (absorb_ns qtype ns res n).1 = m_ns res ++ ns /\
  m_ar (absorb_ns qtype ns res n).1 = m_ar res.
Proof.
  induction ns as [|r ns IH]; intros res n; simpl.
  - by rewrite app_nil_r.
  - destruct (IH (set_ns res (m_ns res ++ [r]))
      (if (r_qtype r =? types.SOA)%Z || (qtype =? types.NS)%Z then S n else n))
      as (Han & Hns & Har).
    rewrite Han, Hns, Har. simpl. by rewrite <- app_assoc.
Qed.

Lemma resolve_hosts_cache (ns : list DNSRecord) : forall nsip (st : Resolver),
  cache (resolve_hosts env ns nsip st).2 = cache st.
Proof.
  induction ns as [|i ns IH]; intros nsip st; simpl; [done|].
  unfold bind, lift, ret, nested_query.
  destruct (r_qtype i =? types.SOA)%Z.
  - destruct (data_0 (r_data i)) as [host|e]; [|done].
    destruct (peer env (tick st) host types.ANY) as [[m|]|e]; by rewrite IH.
  - destruct (peer env (tick st) (r_data i) types.ANY) as [[m|]|e]; by rewrite IH.
Qed.

(** C2. When a response has been parsed, the iteration of the remote
    resolver adds to the cache, in the order of answer, authority and
    additional sections, the records with [ttl > 0] whose type is neither
    SOA nor MX, and no other record: a record of the response is among
    those added if and only if its ttl is positive and its type is
    neither SOA nor MX. Every record of the three sections, cached or
    not, is appended to the outgoing response. *)
Theorem remote_response_caching (qname : rdata) (qtype : Z) (data : bytes)
  (res : Message) (n : nat) (st : Resolver) (cres : Message) :
  raw_parse data = Ok cres ->
  let recs := m_an cres ++ m_ns cres ++ m_ar cres in
  let added := List.filter cacheable recs in
  cache (absorb_response env qname qtype data res n st).2 =
    fold_left (fun c r => add_host (r_name r) r c) added (cache st) /\
  (forall r, In r added <->
     In r recs /\ (0 < r_ttl r)%Z /\
     r_qtype r <> types.SOA /\ r_qtype r <> types.MX) /\
  (forall res' nsip cname n',
     (absorb_response env qname qtype data res n st).1 =
       Ok (res', nsip, cname, n') ->
     m_an res' = m_an res ++ m_an cres /\
     m_ns res' = m_ns res ++ m_ns cres /\
     m_ar res' = m_ar res ++ m_ar cres).
Proof.
  intros Hparse recs added. unfold absorb_response, bind, lift, modify, ret.
  rewrite Hparse. fold recs.
  destruct (absorb_an qname qtype (m_an cres) res [] n) as [[[res1 cname1] n1]|e]
    eqn:Han; simpl.
  2:{ split; [apply cache_records_filter|]. split; [|done].
      intros r. unfold added. rewrite filter_In, cacheable_spec. tauto. }
  apply absorb_an_sections in Han as (Han & Hns & Har).
  pose proof (absorb_ns_sections qtype (m_ns cres) res1 n1) as (Han2 & Hns2 & Har2).
  destruct (absorb_ns qtype (m_ns cres) res1 n1) as [res2 n2]; simpl in *.
  split; [|split].
  - destruct (List.map r_data (List.filter in_A_TYPES (m_ar cres))) as [|ip ips].
    + pose proof (resolve_hosts_cache (m_ns cres) []
        (with_cache (cache_records recs (cache st)) st)) as Hc.
      destruct (resolve_hosts env (m_ns cres) []
        (with_cache (cache_records recs (cache st)) st)) as [[nsip|e] st'];
        simpl in *; rewrite Hc; apply cache_records_filter.
    + simpl. apply cache_records_filter.
  - intros r. unfold added. rewrite filter_In, cacheable_spec. tauto.
  - intros res' nsip cname n' Hout.
    assert (Hres : res' =
      if (m_r cres >? 0)%Z
      then set_r (set_ar res2 (m_ar res2 ++ m_ar cres)) (m_r cres)
      else set_ar res2 (m_ar res2 ++ m_ar cres)).
    { destruct (List.map r_data (List.filter in_A_TYPES (m_ar cres))) as [|ip ips].
      - destruct (resolve_hosts env (m_ns cres) []
          (with_cache (cache_records recs (cache st)) st)) as [[nsip0|e] st'];
          simpl in Hout; [|done]. by injection Hout as <- _ _ _.
      - simpl in Hout. by injection Hout as <- _ _ _. }
    rewrite Hres. destruct (m_r cres >? 0)%Z; simpl; rewrite Han2, Hns2, Har2;
      by rewrite Han, Hns, Har.
Qed.

End RemoteFacts.

(** ** The remote resolver: one candidate name server *)

Section CandidateFacts.
Context `{U : Utils}.
Variable env : Env.

Lemma startswith_qid (data qdata : bytes) :
  (2 <= length qdata)%nat ->
  startswith data (take 2 qdata) = true <-> take 2 data = take 2 qdata.
Proof.
  intros Hlen. destruct qdata as [|a [|b qdata]]; simpl in Hlen; try lia.
  destruct data as [|d [|e data]]; simpl; rewrite ?firstn_O; simpl; try done.
  - destruct (Byte.eqb d a); simpl; split; congruence.
  - destruct (Byte.eqb d a) eqn:Hd, (Byte.eqb e b) eqn:He; simpl.
    + apply byte_dec_bl in Hd, He. subst. split; done.
    + apply eqb_false in He. split; congruence.
    + apply eqb_false in Hd. split; congruence.
    + apply eqb_false in Hd. split; congruence.
Qed.

Lemma try_attempt_accepts (qdata : bytes) (ip : rdata) (st : Resolver) data st' :
  try_attempt env qdata ip st = (Ok (Some data), st') ->
  startswith data (take 2 qdata) = true.
Proof.
  unfold try_attempt, attempt, bind, raise, ret, create_datagram_endpoint,
    transport_close, modify.
  destruct (net env (tick st) ip) as [| | |d]; simpl; try done.
  destruct (startswith d (take 2 qdata)) eqn:Hd; simpl; [|done].
  by intros [= <- _].
Qed.

Lemma candidates_accepts (qdata : bytes) (nsip : list rdata) :
  forall (st : Resolver) data st',
  candidates env qdata nsip st = (Ok (Some data), st') ->
  startswith data (take 2 qdata) = true.
Proof.
  induction nsip as [|ip nsip IH]; intros st data st' H; simpl in H; [done|].
  unfold bind in H.
  destruct (try_attempt env qdata ip st) as [[[d|]|e] st1] eqn:Htry; try done.
  - unfold ret in H. injection H as <- <-. by eapply try_attempt_accepts.
  - by eapply IH.
Qed.

(** C4. In the candidate loop a datagram whose first two bytes differ from
    the first two bytes of the encoded request is not returned: the
    attempt raises [DNSError], which the loop swallows, and the loop goes
    on with the next candidate address. A datagram that starts with the
    request's two id bytes ends the loop and is what the iteration
    parses; and whatever the loop hands over for parsing starts with
    those two bytes. *)
Theorem transaction_id_match (qdata : bytes) (ip : rdata) (nsip : list rdata)
  (st : Resolver) :
  (2 <= length qdata)%nat ->
  (forall data,
      net env (tick st) ip = Datagram data ->
      take 2 data <> take 2 qdata ->
      (attempt env qdata ip st).1 = Raise DNSError /\
      candidates env qdata (ip :: nsip) st =
        candidates env qdata nsip (attempt env qdata ip st).2) /\
  (forall data,
      net env (tick st) ip = Datagram data ->
      take 2 data = take 2 qdata ->
      candidates env qdata (ip :: nsip) st =
        (Ok (Some data), (attempt env qdata ip st).2)) /\
  (forall data st',
      candidates env qdata (ip :: nsip) st = (Ok (Some data), st') ->
      take 2 data = take 2 qdata).
Proof.
  intros Hlen. split; [|split].
  - intros data Hnet Hne.
    assert (Hsw : startswith data (take 2 qdata) = false).
    { apply not_true_is_false. by rewrite startswith_qid. }
    simpl. unfold bind, try_attempt, attempt, bind, raise, ret,
      create_datagram_endpoint, transport_close, modify.
    rewrite Hnet. simpl. by rewrite Hsw.
  - intros data Hnet Heq.
    apply (startswith_qid data qdata Hlen) in Heq.
    simpl. unfold bind, try_attempt, attempt, bind, raise, ret,
      create_datagram_endpoint, transport_close, modify.
    rewrite Hnet. simpl. by rewrite Heq.
  - intros data st' H. apply (startswith_qid data qdata Hlen).
    by eapply candidates_accepts.
Qed.

(** On the success path and on a mismatch of the transaction id the
    transport is closed, by [datagram_received] and again by the task. *)
Lemma datagram_closes_endpoint (qdata : bytes) (ip : rdata) (st : Resolver) data :
  net env (tick st) ip = Datagram data ->
  endpoints (try_attempt env qdata ip st).2 =
    endpoints st ++ [{| ep_addr := ip; ep_closed := true |}].
Proof.
  intros Hnet. unfold try_attempt, attempt, bind, raise, ret,
    create_datagram_endpoint, transport_close, modify.
  rewrite Hnet. simpl.
  assert (Halter : forall f l (e : Endpoint),
    length l = length (endpoints st) ->
    alter f (length (endpoints st)) (l ++ [e]) = l ++ [f e]).
  { intros f l e <-. by rewrite alter_app_r_alt, Nat.sub_diag by lia. }
  destruct (startswith data (take 2 qdata)); simpl; by rewrite !Halter.
Qed.

(** C9, evaluated on the path it misses. When no datagram arrives within
    the read timeout, [wait_for] raises [TimeoutError] before
    [transport.close()] is reached, the [except] clause only passes, and
    the attempt ends with the transport it created still open. *)
Theorem read_timeout_leaves_endpoint_open (qdata : bytes) (ip : rdata)
  (st : Resolver) :
  net env (tick st) ip = ReadTimeout ->
  (try_attempt env qdata ip st).1 = Ok None /\
  endpoints (try_attempt env qdata ip st).2 =
    endpoints st ++ [{| ep_addr := ip; ep_closed := false |}].
Proof.
  intros Hnet. unfold try_attempt, attempt, bind, raise, ret,
    create_datagram_endpoint.
  by rewrite Hnet.
Qed.

End CandidateFacts.

(** ** What the resolvers leave alone *)

(** The resolvers read and write the cache, the transports and the
    environment's counter; the table, the waiters, the work queue and the
    clock are not theirs. *)
Section Frame.
Context `{U : Utils}.

Definition same_table (st st' : Resolver) : Prop :=
  queue st' = queue st /\ futures st' = futures st /\
  heap st' = heap st /\ now st' = now st.

Definition frames {T} (m : M T) : Prop := forall st, same_table st (m st).2.

Lemma same_table_refl st : same_table st st.
Proof. by repeat split. Qed.

Lemma same_table_trans st1 st2 st3 :
  same_table st1 st2 -> same_table st2 st3 -> same_table st1 st3.
Proof. unfold same_table. intros (?&?&?&?) (?&?&?&?). repeat split; congruence. Qed.

Lemma frames_ret {T} (v : T) : frames (ret v).
Proof. intros st. apply same_table_refl. Qed.

Lemma frames_raise {T} e : frames (@raise _ T e).
Proof. intros st. apply same_table_refl. Qed.

Lemma frames_lift {T} (r : result T) : frames (lift r).
Proof. intros st. apply same_table_refl. Qed.

Lemma frames_gets {T} (f : Resolver -> T) : frames (gets f).
Proof. intros st. apply same_table_refl. Qed.

Lemma frames_bind {S T} (m : M S) (k : S -> M T) :
  frames m -> (forall x, frames (k x)) -> frames (bind m k).
Proof.
  intros Hm Hk st. unfold bind. specialize (Hm st).
  destruct (m st) as [[v|e] st1]; simpl in *; [|done].
  eapply same_table_trans; [exact Hm|apply Hk].
Qed.

Lemma frames_modify (f : Resolver -> Resolver) :
  (forall st, same_table st (f st)) -> frames (modify f).
Proof. intros Hf st. apply Hf. Qed.

End Frame.

Create HintDb frames.
#[export] Hint Resolve frames_ret frames_raise frames_lift frames_gets
  frames_bind frames_modify same_table_refl : frames.

Section FrameResolvers.
Context `{U : Utils}.
Variable cfg : Config.
Variable env : Env.

Lemma frames_nested_query name qtype : frames (nested_query env name qtype).
Proof. intros st. by repeat split. Qed.

Lemma frames_chase_cname cname : forall qtype res,
  frames (chase_cname env cname qtype res).
Proof.
  induction cname as [|rec cname IH]; intros qtype res; simpl;
    [apply frames_ret|].
  apply frames_bind; [apply frames_nested_query|].
  intros [cres|]; [|apply IH]. destruct (m_r cres >? 0)%Z; apply IH.
Qed.

Lemma frames_query_cache res fqdn qtype :
  frames (query_cache cfg env res fqdn qtype).
Proof.
  unfold query_cache. apply frames_bind; [apply frames_gets|]. intros c.
  destruct (cache_query c (Text fqdn) (QType types.CNAME)) as [|r l].
  - apply frames_bind; [apply frames_lift|]. intros [res1 n].
    destruct (local_authority cfg fqdn res1 n). apply frames_ret.
  - destruct ((recursion_available cfg =? 0)%Z || (qtype =? types.CNAME)%Z);
      [apply frames_ret|].
    apply frames_bind; [apply frames_chase_cname|]. intros x. apply frames_ret.
Qed.

Lemma frames_create_datagram_endpoint ip : frames (create_datagram_endpoint ip).
Proof. intros st. by repeat split. Qed.

Lemma frames_transport_close t : frames (transport_close t).
Proof. apply frames_modify. intros st. by repeat split. Qed.

Lemma frames_attempt qdata ip : frames (attempt env qdata ip).
Proof.
  unfold attempt. apply frames_bind; [intros st; by repeat split|].
  intros [| | |data]; auto with frames.
  - apply frames_bind; [apply frames_create_datagram_endpoint|].
    intros t. apply frames_raise.
  - apply frames_bind; [apply frames_create_datagram_endpoint|]. intros t.
    apply frames_bind; [apply frames_transport_close|]. intros _.
    apply frames_bind; [apply frames_transport_close|]. intros _.
    destruct (startswith data (take 2 qdata)); auto with frames.
Qed.

Lemma frames_try_attempt qdata ip : frames (try_attempt env qdata ip).
Proof.
  intros st. unfold try_attempt. pose proof (frames_attempt qdata ip st) as H.
  destruct (attempt env qdata ip st) as [[data|[]] st']; exact H.
Qed.

Lemma frames_candidates qdata nsip : frames (candidates env qdata nsip).
Proof.
  induction nsip as [|ip nsip IH]; simpl; [apply frames_ret|].
  apply frames_bind; [apply frames_try_attempt|].
  intros [data|]; [apply frames_ret|apply IH].
Qed.

Lemma frames_resolve_hosts ns : forall nsip, frames (resolve_hosts env ns nsip).
Proof.
  induction ns as [|i ns IH]; intros nsip; simpl; [apply frames_ret|].
  apply frames_bind.
  { destruct (r_qtype i =? types.SOA)%Z; auto with frames. }
  intros host. apply frames_bind; [|intros x; apply IH].
  intros st. unfold nested_query.
  destruct (peer env (tick st) host types.ANY) as [[m|]|e]; by repeat split.
Qed.

Lemma frames_absorb_response qname qtype data res n :
  frames (absorb_response env qname qtype data res n).
Proof.
  unfold absorb_response. apply frames_bind; [apply frames_lift|]. intros cres.
  apply frames_bind; [apply frames_modify; intros st; by repeat split|].
  intros _. apply frames_bind; [apply frames_lift|]. intros [[res1 cname] n1].
  destruct (absorb_ns qtype (m_ns cres) res1 n1) as [res2 n2].
  apply frames_bind; [|intros x; apply frames_ret].
  destruct (List.map r_data (List.filter in_A_TYPES (m_ar cres)));
    [apply frames_resolve_hosts|apply frames_ret].
Qed.

Lemma frames_remote_loop fuel : forall qtype nsip cname res n,
  frames (remote_loop env fuel qtype nsip cname res n).
Proof.
  induction fuel as [|fuel IH]; intros qtype nsip cname res n; simpl;
    [apply frames_ret|].
  destruct n; [|apply frames_ret]. destruct cname as [|qname cname];
    [apply frames_ret|].
  apply frames_bind; [apply frames_candidates|].
  intros [data|]; [|apply frames_ret].
  apply frames_bind; [apply frames_absorb_response|].
  intros [[[res1 nsip1] cname1] n1]. apply IH.
Qed.

Lemma frames_query_remote fuel res fqdn qtype :
  frames (query_remote env fuel res fqdn qtype).
Proof.
  unfold query_remote. apply frames_bind; [apply frames_gets|]. intros c.
  apply frames_bind; [apply frames_remote_loop|].
  intros [[res1 n]|]; apply frames_ret.
Qed.

Lemma frames_resolve fuel res fqdn qtype :
  frames (resolve cfg env fuel res fqdn qtype).
Proof.
  unfold resolve. apply frames_bind; [apply frames_query_cache|].
  intros [[|] res1]; [apply frames_ret|apply frames_query_remote].
Qed.

End FrameResolvers.

(** ** The resolution task *)

Section TaskFacts.
Context `{U : Utils}.
Variable cfg : Config.
Variable env : Env.


End TaskFacts.

(** ** The cache resolver *)

Section CacheFacts.
Context `{U : Utils}.
Variable cfg : Config.
Variable env : Env.

Lemma direct_match_ns_raises (c : cache_t) fqdn qtype (data : list DNSRecord) :
  forall res n,
  (exists rec, In rec data /\ r_qtype rec = types.NS) ->
  direct_match c fqdn qtype data res n = Raise NameError.
Proof.
  induction data as [|rec data IH]; intros res n (r & Hin & Hns);
    [by destruct Hin|].
  simpl. destruct (r_qtype rec =? types.NS)%Z eqn:Hrec; [done|].
  apply IH. exists r. split; [|done]. destruct Hin as [->|Hin]; [|done].
  apply Z.eqb_neq in Hrec. done.
Qed.

Lemma direct_match_plain (c : cache_t) fqdn qtype (data : list DNSRecord) :
  forall res n,
  forallb (fun rec => negb (r_qtype rec =? types.NS)%Z) data = true ->
  direct_match c fqdn qtype data res n =
    Ok (set_an res (m_an res ++ List.map (fun rec => copy_name rec fqdn) data),
        (n + length (List.filter (counts qtype) data))%nat).
Proof.
  induction data as [|rec data IH]; intros res n Hdata; simpl.
  - rewrite app_nil_r, Nat.add_0_r. by destruct res.
  - simpl in Hdata. apply andb_prop in Hdata as [Hrec Hdata].
    apply negb_true_iff in Hrec. rewrite Hrec, IH by done. simpl.
    rewrite <- app_assoc. simpl. f_equal. f_equal.
    destruct (counts qtype rec); simpl; lia.
Qed.

Lemma under_rootdomain_nonempty fqdn :
  (exists suffix, In suffix (rootdomains cfg) /\ endswith fqdn suffix = true) ->
  under_rootdomain cfg fqdn <> [].
Proof.
  intros (suffix & Hin & Hend) Hnil. unfold under_rootdomain in Hnil.
  assert (Hb : In true (List.filter (fun b => b)
                          (List.map (endswith fqdn) (rootdomains cfg)))).
  { apply filter_In. split; [|done]. apply in_map_iff. by exists suffix. }
  by rewrite Hnil in Hb.
Qed.

(** C5, evaluated on the branch it describes. A direct match of type NS
    makes the cache resolver read the unbound name [r] and raise
    [NameError]: no glue is looked up and nothing is appended. *)
Theorem query_cache_ns_raises (res : Message) (fqdn : string) (qtype : Z)
  (st : Resolver) :
  cache_query (cache st) (Text fqdn) (QType types.CNAME) = [] ->
  (exists rec,
      In rec (cache_query (cache st) (Text fqdn) (QType qtype)) /\
      r_qtype rec = types.NS) ->
  query_cache cfg env res fqdn qtype st = (Raise NameError, st).
Proof.
  intros Hcname Hns. unfold query_cache, bind, gets, lift.
  rewrite Hcname. by rewrite direct_match_ns_raises.
Qed.


End CacheFacts.

(** ** Name-server discovery *)

Section NameserverFacts.
Context `{U : Utils}.

Lemma get_nameservers_step (c : cache_t) (a : ascii) (s : string) :
  get_nameservers c (String a s) =
  match nameservers_at c (partition_dot (String a s)).2 with
  | [] => get_nameservers c (partition_dot (String a s)).2
  | ip :: ips => ip :: ips
  end.
Proof. by simp get_nameservers. Qed.

Lemma nameserver_walk_step (c : cache_t) (fqdn : string) :
  nameserver_walk c fqdn =
  match nameservers_at c fqdn with
  | ip :: ips => ip :: ips
  | [] =>
      match fqdn with
      | EmptyString => []
      | String a s => nameserver_walk c (partition_dot (String a s)).2
      end
  end.
Proof.
  simp nameserver_walk. destruct (nameservers_at c fqdn); simpl; [|done].
  by destruct fqdn.
Qed.

Lemma partition_dot_tail_lt (a : ascii) (s : string) :
  String.length (partition_dot (String a s)).2 < String.length (String a s).
Proof.
  assert (Hle : forall t : string,
             String.length (partition_dot t).2 <= String.length t).
  { induction t as [|b t IH]; simpl; [lia|].
    destruct (Ascii.eqb b "."); simpl; [lia|].
    destruct (partition_dot t) as [[h sep] t']; simpl in *. lia. }
  simpl. destruct (Ascii.eqb a "."); simpl; [lia|].
  specialize (Hle s). destruct (partition_dot s) as [[h sep] t]; simpl in *. lia.
Qed.

Lemma get_nameservers_walks_parent (c : cache_t) : forall (len : nat) a s,
  String.length (String a s) <= len ->
  get_nameservers c (String a s) =
  nameserver_walk c (partition_dot (String a s)).2.
Proof.
  induction len as [|len IH]; intros a s Hlen; [simpl in Hlen; lia|].
  rewrite get_nameservers_step, nameserver_walk_step.
  destruct (nameservers_at c (partition_dot (String a s)).2) as [|ip ips]; [|done].
  pose proof (partition_dot_tail_lt a s) as Hlt.
  destruct (partition_dot (String a s)).2 as [|b t] eqn:Htail.
  - by simp get_nameservers.
  - apply IH. lia.
Qed.

(** C6, amended. [get_nameservers(fqdn)] yields nothing for the empty
    name, and otherwise walks the cache from the name that is left when
    the first label of [fqdn] is stripped: it asks for the NS records of
    that name, then strips one label at a time down to the empty label,
    and stops at the first depth that yields an address. At a depth it
    yields the data of an NS record when that is an address, and
    otherwise the data of the cached A and AAAA records of the NS
    target. *)
Theorem get_nameservers_walk (c : cache_t) (fqdn : string) :
  get_nameservers c "" = [] /\
  (fqdn <> "" ->
     get_nameservers c fqdn = nameserver_walk c (partition_dot fqdn).2) /\
  nameserver_walk c fqdn =
    match nameservers_at c fqdn with
    | ip :: ips => ip :: ips
    | [] =>
        match fqdn with
        | EmptyString => []
        | String a s => nameserver_walk c (partition_dot (String a s)).2
        end
    end /\
  nameservers_at c fqdn =
    flat_map
      (fun rec =>
         match ip_type (r_data rec) with
         | None =>
             List.map r_data (cache_query c (r_data rec) (QTypes A_TYPES))
         | Some _ => [r_data rec]
         end)
      (cache_query c (Text fqdn) (QType types.NS)).
Proof.
  split; [by simp get_nameservers|]. split; [|split].
  - intros Hne. destruct fqdn as [|a s]; [done|].
    by apply (get_nameservers_walks_parent c (String.length (String a s))).
  - apply nameserver_walk_step.
  - reflexivity.
Qed.

End NameserverFacts.

(** ** Waiting on a shared waiter *)

Section WaiterFacts.
Context `{U : Utils}.
Variable cfg : Config.
Variable env : Env.

Lemma query_end_done (w : Waiting) (st : Resolver) m :
  heap st !! w_future w = Some (Done m) ->
  query_end w st = (Ok (Returned (Some m)), st).
Proof. intros H. unfold query_end, wait_for. by rewrite H. Qed.

Lemma query_end_cancelled (w : Waiting) (st : Resolver) :
  heap st !! w_future w = Some Cancelled ->
  query_end w st = (Raise CancelledError, st).
Proof. intros H. unfold query_end, wait_for. by rewrite H. Qed.

Lemma query_end_deadline (w : Waiting) (st : Resolver) :
  heap st !! w_future w = Some Pending ->
  w_deadline w <= now st ->
  query_end w st =
    (Ok (Returned None), with_heap (<[w_future w := Cancelled]> (heap st)) st).
Proof.
  intros H Hd. unfold query_end, wait_for. rewrite H.
  apply Nat.leb_le in Hd. by rewrite Hd.
Qed.

Lemma query_end_blocked (w : Waiting) (st : Resolver) :
  heap st !! w_future w = Some Pending ->
  now st < w_deadline w ->
  query_end w st = (Ok Blocked, st).
Proof.
  intros H Hd. unfold query_end, wait_for. rewrite H.
  apply Nat.leb_gt in Hd. by rewrite Hd.
Qed.

(** C7, evaluated where it fails. Two callers hold the same waiter. When
    the deadline of the first passes with the waiter still pending, the
    first returns the absent value and [wait_for] cancels the waiter; the
    second is then woken and raises [CancelledError], whatever its own
    deadline: it returns neither the absent value nor a message. *)
Theorem shared_waiter_timeout (st : Resolver) (wa wb : Waiting) :
  w_future wa = w_future wb ->
  heap st !! w_future wa = Some Pending ->
  w_deadline wa <= now st ->
  (query_end wa st).1 = Ok (Returned None) /\
  (query_end wb (query_end wa st).2).1 = Raise CancelledError.
Proof.
  intros Hsame Hpending Hdeadline.
  rewrite (query_end_deadline wa st Hpending Hdeadline). split; [done|].
  rewrite query_end_cancelled; [done|]. simpl. rewrite <- Hsame.
  apply list_lookup_insert_eq. by apply lookup_lt_Some in Hpending.
Qed.

End WaiterFacts.

(** ** A task that dies *)

Section DeadFacts.
Context `{U : Utils}.
Variable cfg : Config.
Variable env : Env.

Lemma dead_same_table (k : key) f (st st' : Resolver) :
  same_table st st' -> dead k f st -> dead k f st'.
Proof.
  intros (Hq & Hfut & Hheap & _). unfold dead. by rewrite Hq, Hfut, Hheap.
Qed.

Lemma dead_call (k : key) f (st : Resolver) fqdn qtype :
  dead k f st -> dead k f (query_begin fqdn qtype st).2.
Proof.
  intros (Hk & Hq & Hall & Hheap).
  unfold query_begin, bind, gets, ret.
  destruct (futures st !! (fqdn, qtype)) as [g|] eqn:Hg.
  - by rewrite (query_future_joins st fqdn qtype g Hg).
  - rewrite (query_future_creates st fqdn qtype Hg). simpl.
    assert (Hne : (fqdn, qtype) <> k) by (intros <-; congruence).
    assert (Hf : f < length (heap st)) by (by apply (Hall k f)).
    unfold dead; simpl. split; [by rewrite lookup_insert_ne|].
    split. { rewrite elem_of_app, list_elem_of_singleton. intros [?|?]; done. }
    split.
    + apply map_Forall_insert; [done|]. rewrite length_app. simpl. split.
      * split; [lia|]. intros Heq. lia.
      * intros k' g Hk'. destruct (Hall k' g Hk') as [Hlt Hinj]. split; [lia|done].
    + by rewrite !lookup_app_l by done.
Qed.

Lemma dead_wake (k : key) f (st : Resolver) w :
  dead k f st -> dead k f (query_end w st).2.
Proof.
  intros (Hk & Hq & Hall & Hheap).
  unfold query_end, wait_for.
  destruct (heap st !! w_future w) as [[|m|]|] eqn:Hw; simpl; try done.
  destruct (w_deadline w <=? now st)%nat; simpl; [|done].
  unfold dead; simpl. split; [done|]. split; [done|]. split.
  - intros k' g Hk'. rewrite length_insert. by apply Hall.
  - destruct (decide (w_future w = f)) as [<-|Hne].
    + right. apply list_lookup_insert_eq. by apply lookup_lt_Some in Hw.
    + by rewrite list_lookup_insert_ne.
Qed.

Lemma dead_turn (k : key) f (st : Resolver) fuel :
  dead k f st -> dead k f (dispatch cfg env fuel st).
Proof.
  intros Hdead. unfold dispatch.
  destruct (queue st) as [|k' rest] eqn:Hqueue; [done|].
  assert (Hne : k' <> k).
  { intros ->. destruct Hdead as (_ & Hq & _). apply Hq. rewrite Hqueue.
    apply list_elem_of_here. }
  assert (Hdead' : dead k f (with_queue rest st)).
  { destruct Hdead as (Hk & Hq & Hall & Hheap).
    split; [done|]. split; [|done].
    simpl. intros Hin. apply Hq. rewrite Hqueue. by apply list_elem_of_further. }
  clear Hdead Hqueue. destruct k' as [fqdn qtype].
  unfold query_key, bind, futures_get.
  destruct (futures (with_queue rest st) !! (fqdn, qtype)) as [g|] eqn:Hg;
    [|done].
  set (res0 := set_qd _ _).
  pose proof (frames_resolve cfg env fuel res0 fqdn qtype (with_queue rest st))
    as Hframe.
  destruct (resolve cfg env fuel res0 fqdn qtype (with_queue rest st))
    as [[[[ret_ res]|]|e] st1]; simpl in Hframe.
  2,3: by apply (dead_same_table k f _ _ Hframe).
  pose proof (dead_same_table k f _ _ Hframe Hdead') as (Hk & Hq & Hall & Hheap).
  destruct Hframe as (_ & Hfut & _). rewrite <- Hfut in Hg.
  unfold futures_pop. rewrite Hg. unfold cancelled, gets, set_result, ret.
  simpl.
  assert (Hgf : g <> f).
  { intros ->. destruct (Hall _ _ Hg) as [_ Hinj]. by apply Hne, Hinj. }
  assert (Hpop : dead k f (with_futures (delete (fqdn, qtype) (futures st1)) st1)).
  { split; [|split; [done|split; [|done]]]; simpl.
    - by rewrite lookup_delete_ne.
    - by apply map_Forall_delete. }
  destruct (heap st1 !! g) as [[|m|]|] eqn:Hheapg; simpl; rewrite ?Hheapg;
    simpl; try done.
  destruct Hpop as (Hk' & Hq' & Hall' & Hheap'). simpl in *.
  split; [done|]. split; [done|]. split; simpl.
  - intros k'' g'' Hk''. rewrite length_insert. by apply Hall'.
  - by rewrite list_lookup_insert_ne.
Qed.

Lemma dead_step (k : key) f (st : Resolver) o :
  dead k f st -> dead k f (step cfg env o st).2.
Proof.
  intros Hdead. destruct o as [fqdn qtype|w|fuel|d]; simpl.
  - pose proof (dead_call k f st fqdn qtype Hdead) as H.
    by destruct (query_begin fqdn qtype st) as [[w|e] st'].
  - pose proof (dead_wake k f st w Hdead) as H.
    by destruct (query_end w st) as [r st'].
  - by apply dead_turn.
  - done.
Qed.

Lemma dead_run (k : key) f (ops : list Op) : forall st : Resolver,
  dead k f st -> dead k f (run cfg env ops st).2.
Proof.
  induction ops as [|o ops IH]; intros st Hdead; [done|]. simpl.
  pose proof (dead_step k f st o Hdead) as Hstep.
  destruct (step cfg env o st) as [e st1]. specialize (IH st1 Hstep).
  by destruct (run cfg env ops st1) as [es st2].
Qed.

Lemma run_dead_calls (k : key) f (ops : list Op) : forall (st : Resolver) i,
  dead k f st ->
  ops !! i = Some (Call k.1 k.2) ->
  waiter_of <$> (run cfg env ops st).1 !! i = Some (Some f).
Proof.
  induction ops as [|o ops IH]; intros st i Hdead Hi; [done|]. simpl.
  pose proof (dead_step k f st o Hdead) as Hstep.
  destruct (step cfg env o st) as [e st1] eqn:Hs.
  specialize (IH st1). destruct (run cfg env ops st1) as [es st2].
  destruct i as [|i]; simpl in *; [|by apply IH].
  injection Hi as ->. simpl in Hs. unfold query_begin, bind, gets, ret in Hs.
  destruct Hdead as (Hk & _). destruct k as [fqdn qtype]. simpl in Hs.
  rewrite (query_future_joins st fqdn qtype f Hk) in Hs.
  by injection Hs as <- _.
Qed.

Lemma run_dead_wakes (k : key) f (ops : list Op) : forall (st : Resolver) i w r,
  dead k f st ->
  ops !! i = Some (Wake w) ->
  w_future w = f ->
  (run cfg env ops st).1 !! i = Some (Woke r) ->
  r = Ok Blocked \/ r = Ok (Returned None) \/ r = Raise CancelledError.
Proof.
  induction ops as [|o ops IH]; intros st i w r Hdead Hi Hw Hr; [done|].
  simpl in Hr. pose proof (dead_step k f st o Hdead) as Hstep.
  destruct (step cfg env o st) as [e st1] eqn:Hs.
  specialize (IH st1). destruct (run cfg env ops st1) as [es st2].
  destruct i as [|i]; simpl in *; [|by eapply IH].
  injection Hi as ->. injection Hr as ->. simpl in Hs.
  destruct Hdead as (_ & _ & _ & [Hp|Hc]); rewrite <- Hw in *.
  - destruct (le_lt_dec (w_deadline w) (now st)) as [Hd|Hd].
    + rewrite (query_end_deadline w st Hp Hd) in Hs.
      injection Hs as <- _. auto.
    + rewrite (query_end_blocked w st Hp Hd) in Hs.
      injection Hs as <- _. auto.
  - rewrite (query_end_cancelled w st Hc) in Hs. injection Hs as <- _. auto.
Qed.


End DeadFacts.

(** ** The theorems at work *)

Section Worked.
Import Scenario.

(** C1 at work: the first caller of [(a.test, A)] is handed waiter 0,
    and so is the next one. *)
Lemma query_future_single_flight_witness :
  exists st' : @Resolver U0,
    query_future "a.test" types.A (Double.fresh [] ∅) = (Ok 0, st') /\
    query_future "a.test" types.A st' = (Ok 0, st').
Proof.
  destruct (query_future_single_flight (U := U0) default_config Double.silent
              (Double.fresh [] ∅) "a.test" types.A)
    as (_ & _ & Hnew & Hlater & _).
  assert (Hnone : futures (Double.fresh [] ∅) !! ("a.test", types.A) = None)
    by (vm_compute; reflexivity).
  destruct (Hnew Hnone) as [_ Hq].
  eexists. split; [exact Hq|]. exact (Hlater _ _ _ Hq eq_refl).
Defined.

(** C2 at work: of the three records of [reply] only the answer reaches
    the cache. *)
Lemma remote_response_caching_witness :
  cache (absorb_response (U := U1) Double.silent (Text "a.test") types.A good
           (DNSMessage 1) 0 (Double.fresh [reply] ∅)).2 =
  Double.add "a.test" a_test ∅.
Proof.
  destruct (remote_response_caching (U := U1) Double.silent (Text "a.test")
              types.A good (DNSMessage 1) 0 (Double.fresh [reply] ∅) reply
              eq_refl) as [Hcache _].
  rewrite Hcache. vm_compute. reflexivity.
Defined.



(** C4 at work: the datagram with the wrong id is dropped and the second
    server's reply is taken. *)
Lemma transaction_id_match_witness :
  (candidates (U := U1) spoofed request [server1; server2]
     (Double.fresh [reply] ∅)).1 = Ok (Some good).
Proof.
  assert (Hlen : (2 <= length request)%nat) by (vm_compute; lia).
  destruct (transaction_id_match (U := U1) spoofed request server1 [server2]
              (Double.fresh [reply] ∅) Hlen) as (Hdrop & _ & _).
  destruct (Hdrop bad eq_refl) as [_ Hnext].
  - intros Heq. vm_compute in Heq. discriminate.
  - rewrite Hnext. vm_compute. reflexivity.
Defined.

(** C5 at work: the NS record of [example.com] makes the cache resolver
    raise. *)
Lemma query_cache_ns_raises_witness :
  (query_cache (U := U0) default_config Double.silent (DNSMessage 1)
     "example.com" types.NS (Double.fresh [] cache_ns)).1 = Raise NameError.
Proof.
  rewrite (query_cache_ns_raises (U := U0) default_config Double.silent
             (DNSMessage 1) "example.com" types.NS (Double.fresh [] cache_ns)).
  - reflexivity.
  - vm_compute. reflexivity.
  - exists ns_example. split; [|reflexivity]. vm_compute. by left.
Defined.

(** C6 refuted as worded: the name server cached for [example.com] itself
    is not found for [example.com]. *)
Lemma get_nameservers_skips_full_name :
  get_nameservers (U := U0) cache_ns "example.com" <>
  nameserver_walk (U := U0) cache_ns "example.com".
Proof. vm_compute. discriminate. Qed.

(** C6, amended, at work: it is found for [www.example.com]. *)
Lemma get_nameservers_walk_witness :
  get_nameservers (U := U0) cache_ns "www.example.com" = [Text "1.2.3.4"].
Proof.
  destruct (get_nameservers_walk (U := U0) cache_ns "www.example.com")
    as (_ & Hwalk & _).
  rewrite Hwalk; [|discriminate]. vm_compute. reflexivity.
Defined.

(** C7 at work: the second caller of [(a.test, A)] raises at the first
    caller's deadline, a second before its own. *)
Lemma shared_waiter_timeout_witness :
  (query_end caller1 two_callers).1 = Ok (Returned None) /\
  (query_end caller2 (query_end caller1 two_callers).2).1 =
    Raise CancelledError /\
  now two_callers < w_deadline caller2.
Proof.
  destruct (shared_waiter_timeout (U := U0) two_callers caller1 caller2)
    as [Hfirst Hsecond].
  - reflexivity.
  - vm_compute. reflexivity.
  - vm_compute. lia.
  - split; [exact Hfirst|]. split; [exact Hsecond|]. vm_compute. lia.
Defined.


(** C9 at work: a server that stays silent leaves its transport open. *)
Lemma read_timeout_leaves_endpoint_open_witness :
  endpoints (try_attempt (U := U0) Double.silent request server1
               (Double.fresh [] ∅)).2 =
  [{| ep_addr := server1; ep_closed := false |}].
Proof.
  destruct (read_timeout_leaves_endpoint_open (U := U0) Double.silent request
              server1 (Double.fresh [] ∅) eq_refl) as [_ Hopen].
  exact Hopen.
Defined.



End Worked.

(** * Further properties *)

(** ** The cache resolver, beyond the local zone *)

Section CacheMore.
Context `{U : Utils}.
Variable cfg : Config.
Variable env : Env.

Lemma with_tick_twice (v w : nat) (st : Resolver) :
  with_tick v (with_tick w st) = with_tick v st.
Proof. reflexivity. Qed.

Lemma chase_cname_bounds (cname : list DNSRecord) qtype :
  forall res (st : Resolver),
  cache (chase_cname env cname qtype res st).2 = cache st /\
  endpoints (chase_cname env cname qtype res st).2 = endpoints st /\
  tick st <= tick (chase_cname env cname qtype res st).2 <=
    tick st + length cname.
Proof.
  induction cname as [|rec cname IH]; intros res st; simpl.
  - repeat split; lia.
  - unfold bind, nested_query.
    destruct (peer env (tick st) (r_data rec) qtype) as [[cres|]|e]; simpl.
    + destruct (m_r cres >? 0)%Z;
        match goal with
        | |- context [chase_cname env cname qtype ?r ?s] =>
            destruct (IH r s) as (Hc & Hep & Ht)
        end; simpl in *; repeat split; try done; lia.
    + destruct (IH res (with_tick (S (tick st)) st)) as (Hc & Hep & Ht).
      simpl in *. repeat split; try done; lia.
    + repeat split; lia.
Qed.

Lemma chase_cname_run (cname : list DNSRecord) qtype :
  forall res (st : Resolver),
  (forall i rec, cname !! i = Some rec ->
     exists o, peer env (tick st + i) (r_data rec) qtype = Ok o) ->
  exists res',
    chase_cname env cname qtype res st =
      (Ok res', with_tick (tick st + length cname) st) /\
    m_an res' = m_an res ++
      concat (imap (fun i rec =>
        accepted_answers (peer env (tick st + i) (r_data rec) qtype)) cname) /\
    m_qd res' = m_qd res /\ m_ra res' = m_ra res /\
    m_aa res' = m_aa res /\ m_r res' = m_r res.
Proof.
  induction cname as [|rec cname IH]; intros res st Hpeer.
  - simpl. exists res. rewrite app_nil_r, Nat.add_0_r. by destruct st.
  - destruct (Hpeer 0 rec eq_refl) as [o Ho]. rewrite Nat.add_0_r in Ho.
    cbn [chase_cname length]. unfold bind, nested_query. rewrite Ho.
    cbv beta iota.
    set (st1 := with_tick (S (tick st)) st).
    assert (Hshift : forall i r, cname !! i = Some r ->
              exists o', peer env (tick st1 + i) (r_data r) qtype = Ok o').
    { intros i r Hi. destruct (Hpeer (S i) r Hi) as [o' Ho']. exists o'.
      simpl. by rewrite <- Nat.add_succ_r. }
    assert (Himap : imap (fun i r =>
                accepted_answers (peer env (tick st1 + i) (r_data r) qtype)) cname =
              imap ((fun i r =>
                accepted_answers (peer env (tick st + i) (r_data r) qtype)) ∘ S)
                cname).
    { apply imap_ext. intros i r _. simpl. by rewrite <- Nat.add_succ_r. }
    assert (Hend : with_tick (tick st1 + length cname) st1 =
                   with_tick (tick st + S (length cname)) st).
    { unfold st1 at 2. rewrite with_tick_twice. f_equal. simpl. lia. }
    assert (Hhead : forall l : list DNSRecord,
              concat (imap (fun i r =>
                accepted_answers (peer env (tick st + i) (r_data r) qtype))
                (rec :: l)) =
              accepted_answers (Ok o) ++
              concat (imap ((fun i r =>
                accepted_answers (peer env (tick st + i) (r_data r) qtype)) ∘ S)
                l)).
    { intros l. rewrite imap_cons. cbn [concat]. by rewrite Nat.add_0_r, Ho. }
    rewrite Hhead, <- Himap. clear Hhead Himap.
    destruct o as [cres|]; cbn [accepted_answers]; cbv beta iota.
    + destruct (m_r cres >? 0)%Z eqn:Hr.
      * destruct (IH res st1 Hshift) as (res' & Hrun & Han & Hrest).
        exists res'. rewrite Hrun, Hend. split; [done|]. split; [|done].
        by rewrite Han.
      * destruct (IH (set_ar (set_ns (set_an res (m_an res ++ m_an cres))
                    (m_ns cres)) (m_ar cres)) st1 Hshift)
          as (res' & Hrun & Han & Hrest).
        exists res'. rewrite Hrun, Hend. split; [done|]. split; [|done].
        rewrite Han. simpl. by rewrite <- app_assoc.
    + destruct (IH res st1 Hshift) as (res' & Hrun & Han & Hrest).
      exists res'. rewrite Hrun, Hend. split; [done|]. split; [|done].
      by rewrite Han.
Qed.


(** X2. When CNAME records are cached at the name and either recursion is
    switched off or the caller asked for CNAME, the cache resolver
    returns true with exactly those records appended to the answer
    section, asks no nested query and changes nothing else. *)
Theorem query_cache_cname_only (res : Message) (fqdn : string) (qtype : Z)
  (st : Resolver) :
  cache_query (cache st) (Text fqdn) (QType types.CNAME) <> [] ->
  recursion_available cfg = 0%Z \/ qtype = types.CNAME ->
  query_cache cfg env res fqdn qtype st =
    (Ok (true,
         set_an res (m_an res ++
           cache_query (cache st) (Text fqdn) (QType types.CNAME))),
     st).
Proof.
  intros Hc Hstop. unfold query_cache, bind, gets, ret.
  destruct (cache_query (cache st) (Text fqdn) (QType types.CNAME)) as [|r l];
    [done|].
  assert (Hb : (recursion_available cfg =? 0)%Z || (qtype =? types.CNAME)%Z = true).
  { apply orb_true_iff. destruct Hstop as [H|H]; [left|right];
      by apply Z.eqb_eq. }
  by rewrite Hb.
Qed.



Lemma existsb_filter_length {T} (f : T -> bool) (l : list T) :
  negb (length (List.filter f l) =? 0)%nat = existsb f l.
Proof.
  induction l as [|x l IH]; simpl; [done|]. by destruct (f x); simpl.
Qed.

(** X5. For a name outside the local zones, without cached CNAME and
    without NS among its direct matches, the cache resolver appends a
    copy of every match, renamed to the name asked, and returns true
    exactly when one of them counts (the caller asked for CNAME, or the
    match is not a CNAME); with no match it returns nothing truthy and
    the remote resolver is next. The state is untouched. *)
Theorem query_cache_direct (res : Message) (fqdn : string) (qtype : Z)
  (st : Resolver) :
  let data := cache_query (cache st) (Text fqdn) (QType qtype) in
  cache_query (cache st) (Text fqdn) (QType types.CNAME) = [] ->
  forallb (fun rec => negb (r_qtype rec =? types.NS)%Z) data = true ->
  under_rootdomain cfg fqdn = [] ->
  query_cache cfg env res fqdn qtype st =
    (Ok (existsb (counts qtype) data,
         set_an res (m_an res ++ List.map (fun rec => copy_name rec fqdn) data)),
     st).
Proof.
  intros data Hc Hdata Hlocal. unfold query_cache, bind, gets, lift, ret.
  rewrite Hc. fold data. rewrite direct_match_plain by done.
  unfold local_authority. rewrite Hlocal. simpl.
  by rewrite existsb_filter_length.
Qed.

Lemma append_empty (s : string) : String.append EmptyString s = s.
Proof. reflexivity. Qed.

Lemma append_String (c : ascii) (p s : string) :
  String.append (String c p) s = String c (String.append p s).
Proof. reflexivity. Qed.

Lemma endswith_spec (s suffix : string) :
  endswith s suffix = true <-> exists p, s = String.append p suffix.
Proof.
  induction s as [|c s IH]; cbn [endswith].
  - rewrite orb_false_r. split.
    + intros H. apply String.eqb_eq in H. subst. by exists EmptyString.
    + intros [p Hp]. destruct p as [|c p].
      * rewrite append_empty in Hp. subst. apply String.eqb_refl.
      * rewrite append_String in Hp. discriminate.
  - rewrite orb_true_iff, IH. split.
    + intros [H|[p Hp]].
      * apply String.eqb_eq in H. exists EmptyString. by rewrite append_empty.
      * exists (String c p). by rewrite append_String, Hp.
    + intros [p Hp]. destruct p as [|c' p].
      * left. rewrite append_empty in Hp. subst. apply String.eqb_refl.
      * right. rewrite append_String in Hp. injection Hp as -> ->. by exists p.
Qed.

(** X6. A name is served as local exactly when one of the configured
    suffixes is a suffix of it, character for character: the test is
    case sensitive and does not look at label boundaries. *)
Theorem under_rootdomain_spec (fqdn : string) :
  under_rootdomain cfg fqdn <> [] <->
  exists suffix p,
    In suffix (rootdomains cfg) /\ fqdn = String.append p suffix.
Proof.
  unfold under_rootdomain. split.
  - intros Hne.
    destruct (List.filter (fun b => b)
                (List.map (endswith fqdn) (rootdomains cfg))) as [|b l] eqn:Hf;
      [done|].
    assert (Hin : In b (List.filter (fun b => b)
                          (List.map (endswith fqdn) (rootdomains cfg))))
      by (rewrite Hf; by left).
    apply filter_In in Hin as [Hin Hb]. apply in_map_iff in Hin as (suffix & He & Hin).
    subst b. apply endswith_spec in Hb as [p Hp]. by exists suffix, p.
  - intros (suffix & p & Hin & Hp) Hnil.
    assert (Hb : In true (List.filter (fun b => b)
                            (List.map (endswith fqdn) (rootdomains cfg)))).
    { apply filter_In. split; [|done]. apply in_map_iff. exists suffix.
      split; [|done]. apply endswith_spec. by exists p. }
    by rewrite Hnil in Hb.
Qed.

End CacheMore.

(** ** The further properties at work *)

Section WorkedCache.
Import Scenario.

(** X2 at work: asked for the CNAME of [www.lan] itself. *)
Lemma query_cache_cname_only_witness :
  (query_cache (U := U0) default_config Double.silent (DNSMessage 1)
     "www.lan" types.CNAME (Double.fresh [] cache_cname)).1 =
  Ok (true, set_an (DNSMessage 1) [cname_www]).
Proof.
  rewrite (query_cache_cname_only (U := U0) default_config Double.silent
             (DNSMessage 1) "www.lan" types.CNAME (Double.fresh [] cache_cname)).
  - vm_compute. reflexivity.
  - vm_compute. discriminate.
  - by right.
Defined.



(** X5 at work: an address cached for [a.test], outside the local zone. *)
Lemma query_cache_direct_witness :
  (query_cache (U := U0) default_config Double.silent (DNSMessage 1)
     "a.test" types.A (Double.fresh [] (Double.add "a.test" a_test ∅))).1 =
  Ok (true, set_an (DNSMessage 1) [a_test]).
Proof.
  rewrite (query_cache_direct (U := U0) default_config Double.silent
             (DNSMessage 1) "a.test" types.A
             (Double.fresh [] (Double.add "a.test" a_test ∅))).
  - vm_compute. reflexivity.
  - vm_compute. reflexivity.
  - vm_compute. reflexivity.
  - vm_compute. reflexivity.
Defined.

End WorkedCache.

(** ** Name-server discovery, further *)

Section NameserverMore.
Context `{U : Utils}.

Lemma partition_dot_no_dot (s : string) :
  ~ In "."%char (list_ascii_of_string s) ->
  partition_dot s = (s, EmptyString, EmptyString).
Proof.
  induction s as [|c s IH]; intros Hdot; simpl; [done|].
  simpl in Hdot. destruct (Ascii.eqb c ".") eqn:Hc.
  - apply Ascii.eqb_eq in Hc. subst. tauto.
  - rewrite IH; [done|tauto].
Qed.

(** X7. For a non-empty name without a dot, [get_nameservers] looks at
    one place only, the NS records of the empty (root) name, and yields
    what that depth yields. *)
Theorem get_nameservers_single_label (c : cache_t) (fqdn : string) :
  fqdn <> EmptyString ->
  ~ In "."%char (list_ascii_of_string fqdn) ->
  get_nameservers c fqdn = nameservers_at c EmptyString.
Proof.
  intros Hne Hdot. destruct fqdn as [|a s]; [done|].
  rewrite get_nameservers_step, (partition_dot_no_dot _ Hdot). cbn [snd].
  destruct (nameservers_at c EmptyString); [by simp get_nameservers|done].
Qed.

Lemma partition_dot_tail_suffix (s : string) :
  exists p, s = String.append p (partition_dot s).2.
Proof.
  induction s as [|c s [p Hp]]; simpl.
  - by exists EmptyString.
  - destruct (Ascii.eqb c ".") eqn:Hc; simpl.
    + exists (String c EmptyString). by rewrite append_String, append_empty.
    + destruct (partition_dot s) as [[h sep] t]; simpl in *.
      exists (String c p). by rewrite append_String, <- Hp.
Qed.

Lemma append_assoc (p q s : string) :
  String.append p (String.append q s) = String.append (String.append p q) s.
Proof.
  induction p as [|c p IH]; [by rewrite !append_empty|].
  by rewrite !append_String, IH.
Qed.

Lemma nameservers_at_from_cache (c : cache_t) (zone : string) (ip : rdata) :
  In ip (nameservers_at c zone) ->
  exists rec,
    In rec (cache_query c (Text zone) (QType types.NS)) /\
    ((ip = r_data rec /\ ip_type ip <> None) \/
     (ip_type (r_data rec) = None /\
      exists a, In a (cache_query c (r_data rec) (QTypes A_TYPES)) /\
                ip = r_data a)).
Proof.
  unfold nameservers_at. rewrite in_flat_map. intros (rec & Hrec & Hip).
  exists rec. split; [done|].
  destruct (ip_type (r_data rec)) as [v|] eqn:Hv.
  - left. destruct Hip as [<-|[]]. split; [done|]. by rewrite Hv.
  - right. split; [done|]. apply in_map_iff in Hip as (a & <- & Ha). by exists a.
Qed.

Lemma get_nameservers_provenance (c : cache_t) : forall (len : nat) fqdn ip,
  String.length fqdn <= len ->
  In ip (get_nameservers c fqdn) ->
  exists zone,
    endswith fqdn zone = true /\
    String.length zone < String.length fqdn /\
    In ip (nameservers_at c zone).
Proof.
  induction len as [|len IH]; intros fqdn ip Hlen Hin.
  - destruct fqdn; [|simpl in Hlen; lia]. by simp get_nameservers in Hin.
  - destruct fqdn as [|a s]; [by simp get_nameservers in Hin|].
    rewrite get_nameservers_step in Hin.
    pose proof (partition_dot_tail_lt a s) as Hlt.
    pose proof (partition_dot_tail_suffix (String a s)) as Hsuf.
    apply endswith_spec in Hsuf.
    destruct (nameservers_at c (partition_dot (String a s)).2) as [|x xs] eqn:Hat.
    + assert (Hshort : String.length (partition_dot (String a s)).2 <= len)
        by lia.
      destruct (IH _ ip Hshort Hin) as (zone & Hend & Hzl & Hz).
      exists zone. split; [|split; [lia|done]].
      apply endswith_spec in Hend as [p Hp]. apply endswith_spec in Hsuf as [q Hq].
      apply endswith_spec. exists (String.append q p).
      rewrite Hq at 1. rewrite Hp at 1. by rewrite append_assoc.
    + exists (partition_dot (String a s)).2. by rewrite Hat.
Qed.

(** X8. Every address [get_nameservers] yields comes from the cache at a
    name that is a proper suffix of the name asked: it is the data of an
    NS record cached there that [ip_type] takes for an address, or the
    data of a cached A or AAAA record of the target of such an NS record
    that is not an address. *)
Theorem get_nameservers_from_cache (c : cache_t) (fqdn : string) (ip : rdata) :
  In ip (get_nameservers c fqdn) ->
  exists zone rec,
    endswith fqdn zone = true /\
    String.length zone < String.length fqdn /\
    In rec (cache_query c (Text zone) (QType types.NS)) /\
    ((ip = r_data rec /\ ip_type ip <> None) \/
     (ip_type (r_data rec) = None /\
      exists a, In a (cache_query c (r_data rec) (QTypes A_TYPES)) /\
                ip = r_data a)).
Proof.
  intros Hin.
  destruct (get_nameservers_provenance c (String.length fqdn) fqdn ip
              (Nat.le_refl _) Hin) as (zone & Hend & Hlen & Hat).
  destruct (nameservers_at_from_cache c zone ip Hat) as (rec & Hrec & Hip).
  by exists zone, rec.
Qed.

End NameserverMore.

(** ** The candidate loop, further *)

Section CandidateMore.
Context `{U : Utils}.
Variable env : Env.

Lemma try_attempt_tick (qdata : bytes) (ip : rdata) (st : Resolver) :
  tick (try_attempt env qdata ip st).2 = S (tick st).
Proof.
  unfold try_attempt, attempt, bind, raise, ret, create_datagram_endpoint,
    transport_close, modify.
  destruct (net env (tick st) ip) as [| | |d]; simpl; try done.
  by destruct (startswith d (take 2 qdata)).
Qed.

Lemma try_attempt_datagram (qdata : bytes) (ip : rdata) (st : Resolver) data st' :
  try_attempt env qdata ip st = (Ok (Some data), st') ->
  net env (tick st) ip = Datagram data.
Proof.
  unfold try_attempt, attempt, bind, raise, ret, create_datagram_endpoint,
    transport_close, modify.
  destruct (net env (tick st) ip) as [| | |d]; simpl; try done.
  destruct (startswith d (take 2 qdata)); simpl; [|done]. by intros [= -> _].
Qed.

(** X9. The candidate loop tries the addresses in order, one attempt
    each, and stops at the first reply it accepts: when it hands over a
    datagram, that datagram came from some address of the list, every
    address before it was tried once, and no address after it was
    contacted. *)
Theorem candidates_first_accepted (qdata : bytes) (nsip : list rdata) :
  forall (st : Resolver) data st',
  candidates env qdata nsip st = (Ok (Some data), st') ->
  exists failed ip rest,
    nsip = failed ++ ip :: rest /\
    net env (tick st + length failed) ip = Datagram data /\
    tick st' = tick st + length failed + 1.
Proof.
  induction nsip as [|ip nsip IH]; intros st data st' H; simpl in H; [done|].
  unfold bind in H. pose proof (try_attempt_tick qdata ip st) as Htick.
  destruct (try_attempt env qdata ip st) as [[[d|]|e] st1] eqn:Htry; try done.
  - unfold ret in H. injection H as <- <-. exists [], ip, nsip. simpl in *.
    rewrite Nat.add_0_r. split; [done|]. split; [|lia].
    by eapply try_attempt_datagram.
  - destruct (IH st1 data st' H) as (failed & ip' & rest & -> & Hnet & Ht).
    exists (ip :: failed), ip', rest. simpl in *. rewrite Htick in Hnet, Ht.
    split; [done|]. split; [|lia]. by rewrite <- Nat.add_succ_comm.
Qed.

(** X10. When no server of the list sends a datagram within the read
    timeout, the loop ends without a reply after one attempt per address
    and leaves one open transport behind for every address tried. *)
Theorem candidates_all_silent (qdata : bytes) (nsip : list rdata) :
  forall st : Resolver,
  (forall i ip, nsip !! i = Some ip ->
     net env (tick st + i) ip = ReadTimeout) ->
  candidates env qdata nsip st =
    (Ok None,
     with_endpoints
       (endpoints st ++
        List.map (fun ip => {| ep_addr := ip; ep_closed := false |}) nsip)
       (with_tick (tick st + length nsip) st)).
Proof.
  induction nsip as [|ip nsip IH]; intros st Hnet; simpl.
  - unfold ret. rewrite app_nil_r, Nat.add_0_r. by destruct st.
  - pose proof (Hnet 0 ip eq_refl) as H0. rewrite Nat.add_0_r in H0.
    unfold bind at 1. unfold try_attempt, attempt, bind, raise,
      create_datagram_endpoint. rewrite H0. cbv beta iota.
    rewrite IH.
    + destruct st; unfold with_endpoints, with_tick; simpl.
      by rewrite <- app_assoc, Nat.add_succ_r.
    + intros i ip' Hi. simpl. rewrite <- Nat.add_succ_r. by apply (Hnet (S i)).
Qed.

End CandidateMore.

(** ** The remote resolver, further *)

Section RemoteMore.
Context `{U : Utils}.
Variable cfg : Config.
Variable env : Env.

(** X11. What the answer section of a response does to the walk: every
    answer is appended to [res.an]; the targets of the CNAME answers, in
    order, become the working list; and an answer counts exactly when
    its name equals the name asked up to ASCII case and the caller asked
    for CNAME or the answer is not a CNAME. *)
Theorem absorb_an_counts (q : string) (qtype : Z) (an : list DNSRecord) :
  forall res cname n,
  absorb_an (Text q) qtype an res cname n =
    Ok (set_an res (m_an res ++ an),
        cname ++ List.map r_data
                   (List.filter (fun r => (r_qtype r =? types.CNAME)%Z) an),
        n + length (List.filter
                      (fun r => String.eqb (lower (r_name r)) (lower q) &&
                                counts qtype r) an)).
Proof.
  induction an as [|r an IH]; intros res cname n; simpl.
  - rewrite !app_nil_r, Nat.add_0_r. by destruct res.
  - rewrite IH. simpl. f_equal. f_equal; [f_equal|].
    + by rewrite <- app_assoc.
    + destruct (r_qtype r =? types.CNAME)%Z; simpl; [|done].
      by rewrite <- app_assoc.
    + destruct (String.eqb (lower (r_name r)) (lower q) && counts qtype r);
        simpl; lia.
Qed.

(** X12. When the additional section of the response holds A or AAAA
    records, their data, in order, are the candidates of the next
    iteration and the iteration asks no nested query: apart from the
    cache the state is untouched. A positive response code of the
    upstream message replaces the one of the response under
    construction, question and flags stay. *)
Theorem absorb_response_glue (q : string) (qtype : Z) (data : bytes)
  (res : Message) (n : nat) (st : Resolver) (cres : Message) :
  raw_parse data = Ok cres ->
  List.filter in_A_TYPES (m_ar cres) <> [] ->
  exists res' cname n',
    absorb_response env (Text q) qtype data res n st =
      (Ok (res', List.map r_data (List.filter in_A_TYPES (m_ar cres)),
           cname, n'),
       with_cache
         (cache_records (m_an cres ++ m_ns cres ++ m_ar cres) (cache st)) st) /\
    m_r res' = (if (m_r cres >? 0)%Z then m_r cres else m_r res) /\
    m_qd res' = m_qd res /\ m_ra res' = m_ra res /\ m_aa res' = m_aa res.
Proof.
  intros Hparse Hglue. unfold absorb_response, bind, lift, modify, ret.
  rewrite Hparse, absorb_an_counts. cbv beta iota.
  assert (Hflags : forall ns r0 k,
    m_r (absorb_ns qtype ns r0 k).1 = m_r r0 /\
    m_qd (absorb_ns qtype ns r0 k).1 = m_qd r0 /\
    m_ra (absorb_ns qtype ns r0 k).1 = m_ra r0 /\
    m_aa (absorb_ns qtype ns r0 k).1 = m_aa r0).
  { induction ns as [|x ns IH]; intros r0 k; simpl; [done|].
    destruct (IH (set_ns r0 (m_ns r0 ++ [x]))
      (if (r_qtype x =? types.SOA)%Z || (qtype =? types.NS)%Z then S k else k))
      as (? & ? & ? & ?). done. }
  match goal with
  | |- context [absorb_ns qtype (m_ns cres) ?r0 ?k] =>
      destruct (Hflags (m_ns cres) r0 k) as (Hr & Hqd & Hra & Haa);
      destruct (absorb_ns qtype (m_ns cres) r0 k) as [res2 n2]
  end.
  simpl in Hr, Hqd, Hra, Haa.
  destruct (List.filter in_A_TYPES (m_ar cres)) as [|g gs] eqn:Hg; [done|].
  cbn [List.map]. cbv beta iota.
  eexists _, _, _. split; [reflexivity|].
  destruct (m_r cres >? 0)%Z; simpl; by rewrite ?Hr, ?Hqd, ?Hra, ?Haa.
Qed.

(** X13. Without glue the iteration asks one nested query per authority
    record, for the record's data (for SOA the first field). A nested
    query that raises or comes back empty-handed adds nothing and does
    not stop the iteration; the others add the A and AAAA data of their
    answers. *)
Theorem resolve_hosts_swallows (ns : list DNSRecord) :
  forall nsip (st : Resolver),
  (forall i, In i ns -> exists host, ns_host i = Ok host) ->
  resolve_hosts env ns nsip st =
    (Ok (nsip ++
         concat (imap (fun j i =>
           match ns_host i with
           | Ok host => host_addresses (peer env (tick st + j) host types.ANY)
           | Raise _ => []
           end) ns)),
     with_tick (tick st + length ns) st).
Proof.
  induction ns as [|i ns IH]; intros nsip st Hhost.
  - simpl. unfold ret. rewrite app_nil_r, Nat.add_0_r. by destruct st.
  - destruct (Hhost i (or_introl eq_refl)) as [host Hh].
    cbn [resolve_hosts length]. rewrite imap_cons. cbn [concat].
    rewrite Nat.add_0_r, Hh. unfold ns_host in Hh.
    unfold bind at 1.
    assert (Hfirst :
      (if (r_qtype i =? types.SOA)%Z then lift (data_0 (r_data i))
       else ret (r_data i)) st = (Ok host, st)).
    { destruct (r_qtype i =? types.SOA)%Z; unfold lift, ret; by rewrite ?Hh;
        try injection Hh as ->. }
    rewrite Hfirst. cbv beta iota. unfold bind at 1. unfold nested_query.
    assert (Hrest : forall l0,
      resolve_hosts env ns l0 (with_tick (S (tick st)) st) =
      (Ok (l0 ++
           concat (imap ((fun j i0 =>
             match ns_host i0 with
             | Ok host0 =>
                 host_addresses (peer env (tick st + j) host0 types.ANY)
             | Raise _ => []
             end) ∘ S) ns)),
       with_tick (tick st + S (length ns)) st)).
    { intros l0. rewrite IH by (intros i0 Hi0; apply Hhost; by right).
      f_equal; [f_equal; f_equal; f_equal|].
      - apply imap_ext. intros j i0 _. simpl. by rewrite <- Nat.add_succ_r.
      - rewrite with_tick_twice. f_equal. simpl. lia. }
    destruct (peer env (tick st) host types.ANY) as [[m|]|e];
      cbv beta iota; rewrite Hrest; cbn [host_addresses];
      by rewrite ?app_nil_l, ?app_assoc.
Qed.

End RemoteMore.
